(** * ethspam: weighted query registry and dispatch loop

    A shallow embedding of [main.go]: the weighted generator registry
    ([generator.Add], [generator.Query]), the transport call [query], and
    the goroutines started by [main] (state producer and workers), with
    the properties of the design document stated against them. *)

From Equations Require Import Equations.
From stdpp Require Import base option list strings sorting gmap.
From Stdlib Require Import ZArith Lia Floats.

Local Open Scope Z_scope.

(** ** Machine integers: Go's [int64] *)

Module Int64.

Definition min_int : Z := - 2 ^ 63.
Definition max_int : Z := 2 ^ 63 - 1.

Definition in_range (z : Z) : Prop := min_int ≤ z ≤ max_int.

(** Two's-complement reduction of a mathematical integer to 64 bits. *)
Definition wrap (z : Z) : Z := (z + 2 ^ 63) `mod` 2 ^ 64 - 2 ^ 63.

(** [a + b] and [a += b] on int64. *)
Definition add (a b : Z) : Z := wrap (a + b).

(** [a - b] on int64. *)
Definition sub (a b : Z) : Z := wrap (a - b).

(** [a % b] on int64: truncated remainder (sign of the dividend); a zero
    divisor is a run-time panic, reported here as [None]. *)
Definition rem (a b : Z) : option Z :=
  if decide (b = 0) then None else Some (wrap (Z.rem a b)).

End Int64.

(** ** Go run-time outcomes *)

(** The run-time panics that the embedded code can raise. *)
Inductive panic : Type :=
| SliceBoundsOutOfRange (lo hi : nat)
| IndexOutOfRange (i len : nat)
| IntegerDivideByZero
| NilDereference
| PanicMsg (msg : string).

(** A computation either completes with a value or panics. *)
Inductive exec (A : Type) : Type :=
| Done (a : A)
| Panicked (p : panic).
Arguments Done {A} a.
Arguments Panicked {A} p.

#[global] Instance exec_ret : MRet exec := λ A a, Done a.
#[global] Instance exec_bind : MBind exec := λ A B f m,
  match m with
  | Done a => f a
  | Panicked p => Panicked p
  end.

(** Go's [error] values that the program compares or creates. Sentinel
    errors are compared by identity, so each is its own constructor. *)
Inductive error : Type :=
| io_EOF
| errEmptyBlock
| errors_New (msg : string).

#[global] Instance error_eq_dec : EqDecision error.
Proof. solve_decision. Defined.

(** ** Slices *)

Module Slice.
Section Ops.
Context {A : Type}.

(** [s[i]] as an r-value. *)
Definition index (s : list A) (i : nat) : exec A :=
  match s !! i with
  | Some x => Done x
  | None => Panicked (IndexOutOfRange i (length s))
  end.

(** [s[i] = x]. *)
Definition store (s : list A) (i : nat) (x : A) : exec (list A) :=
  if decide (i < length s)%nat then Done (<[i := x]> s)
  else Panicked (IndexOutOfRange i (length s)).

(** [s[lo:]]: the bound is checked against [len(s)]. *)
Definition from (s : list A) (lo : nat) : exec (list A) :=
  if decide (lo ≤ length s)%nat then Done (drop lo s)
  else Panicked (SliceBoundsOutOfRange lo (length s)).

(** [copy(dst, src)] on its own: the new contents of [dst] after
    [min(len(dst), len(src))] elements were copied. *)
Definition copy (dst src : list A) : list A :=
  let n := (length dst `min` length src)%nat in
  take n src ++ drop n dst.

(** [copy(s[d:], s[f:])] where both operands are windows of the same
    backing array [s]: the source window is read as it was before the
    call (memmove semantics) and the destination window is written
    back into [s]. *)
Definition copy_within (s : list A) (d f : nat) : exec (list A) :=
  dst ← from s d;
  src ← from s f;
  mret (take d s ++ copy dst src).
End Ops.
End Slice.

(** ** [sort.Search] of the Go standard library *)

Module Sort.

(** The loop of [sort.Search]: [for i < j { h := int(uint(i+j) >> 1);
    if !f(h) { i = h + 1 } else { j = h } }; return i]. The predicate may
    panic (it indexes a slice). *)
Equations? search_loop (f : nat → exec bool) (i j : nat) : exec nat
  by wf (j - i)%nat lt :=
  search_loop f i j with decide (i < j)%nat := {
    | right _ := Done i
    | left _ with f ((i + j) / 2)%nat := {
        | Panicked p := Panicked p
        | Done false := search_loop f ((i + j) / 2 + 1)%nat j
        | Done true := search_loop f i ((i + j) / 2)%nat } }.
Proof.
  all: pose proof (Nat.div_mod_eq (i + j) 2);
    pose proof (Nat.mod_upper_bound (i + j) 2); lia.
Qed.

(** [sort.Search(n, f)]. *)
Definition Search (n : nat) (f : nat → exec bool) : exec nat :=
  search_loop f 0%nat n.

End Sort.

(** ** The [State] interface

    [State] is declared outside [main.go]; [Query] only calls its
    [RandInt64] method. The random source and the id allocator behind a
    snapshot are shared by every snapshot and every worker, so they live
    in a separate [Store] that each call reads and advances. *)

Class StateAPI (State Store : Type) : Type := {
  RandInt64 : State → Store → Z * Store
}.

(** [bytes.Buffer] contents, also the [io.Writer] handed to generators. *)
Definition Buffer : Type := list Byte.byte.

(** ** The weighted registry *)

Section Registry.
Context {State Store : Type} `{!StateAPI State Store}.

(** [type Generator func(io.Writer, State) error]: what was written is
    appended to the buffer, the shared store advances, and the error is
    [None] for Go's [nil]. *)
Definition Generator : Type :=
  Buffer → State → Store → option error * Buffer * Store.

(** [type RandomQuery struct]. [Generate] is [None] for a nil func. *)
Record RandomQuery : Type := {
  Method : string;
  Weight : Z;
  Generate : option Generator
}.

(** The zero value [RandomQuery{}]. *)
Definition zeroQuery : RandomQuery :=
  {| Method := ""; Weight := 0; Generate := None |}.

(** [type generator struct]. A nil slice and an empty one are both [[]]. *)
Record generator : Type := {
  queries : list RandomQuery;
  totalWeight : Z
}.

(** [gen := generator{}]. *)
Definition emptyGenerator : generator :=
  {| queries := []; totalWeight := 0 |}.

(** The closure handed to [sort.Search] by [Add]:
    [func(i int) bool { return g.queries[i].Weight < query.Weight }]. *)
Definition lessThan (qs : list RandomQuery) (query : RandomQuery)
    (i : nat) : exec bool :=
  q ← Slice.index qs i;
  mret (Weight q <? Weight query).

(** [func (g *generator) Add(query RandomQuery)]. *)
Definition Add (g : generator) (query : RandomQuery) : exec generator :=
  let qs :=
    match queries g with
    | [] => [zeroQuery]                       (* make([]RandomQuery, 1) *)
    | _ :: _ => queries g ++ [zeroQuery]      (* append(g.queries, RandomQuery{}) *)
    end in
  idx ← Sort.Search (length qs) (lessThan qs query);
  qs ← Slice.copy_within qs (idx + 1) idx;
  qs ← Slice.store qs idx query;
  mret {| queries := qs;
          totalWeight := Int64.add (totalWeight g) (Weight query) |}.

(** A sequence of [Add] calls on the same registry, as made during
    initialisation; the first panic ends it. *)
Definition AddAll (g : generator) (qs : list RandomQuery) : exec generator :=
  foldl (λ acc q, g' ← acc; Add g' q) (Done g) qs.

(** The loop of [Query]: [for _, q := range g.queries { current +=
    q.Weight; if current >= weight { return q.Generate(w, s) } }]. It
    yields the position and the entry whose generator is called, or
    [None] when the range is exhausted. *)
Fixpoint walk (qs : list RandomQuery) (current weight : Z) (i : nat)
    : option (nat * RandomQuery) :=
  match qs with
  | [] => None
  | q :: rest =>
      let current := Int64.add current (Weight q) in
      if current >=? weight then Some (i, q)
      else walk rest current weight (S i)
  end.

(** Calling a func value; a nil func panics. *)
Definition call (f : option Generator) (w : Buffer) (s : State) (σ : Store)
    : exec (option error) * Buffer * Store :=
  match f with
  | Some gen => let '(err, w', σ') := gen w s σ in (Done err, w', σ')
  | None => (Panicked NilDereference, w, σ)
  end.

(** [func (g *generator) Query(w io.Writer, s State) error]. The result
    carries the writer and the shared store as the call left them. *)
Definition Query (g : generator) (w : Buffer) (s : State) (σ : Store)
    : exec (option error) * Buffer * Store :=
  if decide (length (queries g) = 0%nat) then
    (Done (Some (errors_New "no query generators available")), w, σ)
  else
    let '(r, σ) := RandInt64 s σ in
    match Int64.rem r (totalWeight g) with
    | None => (Panicked IntegerDivideByZero, w, σ)
    | Some weight =>
        match walk (queries g) 0 weight 0%nat with
        | Some (_, q) => call (Generate q) w s σ
        | None =>
            (Panicked (PanicMsg "off by one bug in weighted query selection"),
             w, σ)
        end
    end.

(** *** Vocabulary for the properties of the registry *)

(** The two orders on entries: by weight, heaviest first or lightest
    first. *)
Definition heavierFirst : relation RandomQuery :=
  λ a b, Weight b ≤ Weight a.

Definition lighterFirst : relation RandomQuery :=
  λ a b, Weight a ≤ Weight b.

(** The exact (unbounded) sum of the [Weight] fields. *)
Definition sumWeights (qs : list RandomQuery) : Z :=
  foldr (λ q acc, Weight q + acc) 0 qs.

(** The probe of [lessThan] as a total function, for positions inside the
    slice. *)
Definition lighter (qs : list RandomQuery) (query : RandomQuery) (k : nat)
    : bool :=
  match qs !! k with
  | Some x => Weight x <? Weight query
  | None => false
  end.

(** The position that the loop of [Query] stops at for the draw [d]. *)
Definition selectedIndex (g : generator) (d : Z) : option nat :=
  fst <$> walk (queries g) 0 d 0%nat.

(** How many of the draws [0, 1, ..., totalWeight - 1] stop at position
    [i]. *)
Definition drawsSelecting (g : generator) (i : nat) : nat :=
  length (filter (λ d, selectedIndex g d = Some i)
            (seqZ 0 (totalWeight g))).

(** What a sequence of [Add] calls on a fresh registry should leave: a
    registry holding exactly the added entries, whose total is the sum of
    the stored weights. *)
Definition registryFaithful (qs : list RandomQuery) : Prop :=
  ∃ g, AddAll emptyGenerator qs = Done g ∧
       queries g ≡ₚ qs ∧
       totalWeight g = sumWeights (queries g).

End Registry.

Arguments Generator : clear implicits.
Arguments RandomQuery : clear implicits.
Arguments generator : clear implicits.

(** ** Configuration and collaborators *)

(** [type Options struct]: the command-line flags. *)
Record Options : Type := {
  Methods : gmap string Z;
  Web3Endpoint : string;
  RateLimit : float;
  Version : bool
}.

(** The only field of [http.Response] that the program reads. *)
Record Response : Type := { StatusCode : Z }.

(** What [http.Post] hands back: [(resp, err)], with [None] for [nil]. *)
Definition PostResult : Type := option Response * option error.

(** An argument of a formatted print. *)
Inductive arg : Type :=
| ArgString (s : string)
| ArgInt (z : Z)
| ArgError (e : error).

(** What the process does to the outside: requests and refreshes sent,
    lines printed. *)
Inductive output : Type :=
| HttpPost (endpoint contentType : string) (body : Buffer)
| RefreshCall
| LogPrintf (format : string) (args : list arg)
| Println (line : string)
| StderrPrintf (format : string) (args : list arg).

(** Whether the process is alive: [os.Exit] and an uncaught panic in any
    goroutine both end it. *)
Inductive pstatus : Type :=
| Running
| Exited (code : Z)
| Crashed (p : panic).

#[global] Instance pstatus_inhabited : Inhabited pstatus := populate Running.

(** ** The process state shared by the goroutines of [main] *)

Section Process.
Context {State Store : Type} `{!StateAPI State Store}.

(** [stateChannel] is [make(chan State, 1)]: at most one queued snapshot.
    [ctxDone] tells whether [ctx.Done()] is closed. [counter] is the
    package-level request counter, [store] the shared random source and
    id allocator, [trace] the outputs so far, oldest first. *)
Record World : Type := {
  status : pstatus;
  stateChannel : list State;
  ctxDone : bool;
  counter : Z;
  store : Store;
  trace : list output
}.

Definition set_status (st : pstatus) (W : World) : World :=
  {| status := st; stateChannel := stateChannel W; ctxDone := ctxDone W;
     counter := counter W; store := store W; trace := trace W |}.

Definition set_stateChannel (ch : list State) (W : World) : World :=
  {| status := status W; stateChannel := ch; ctxDone := ctxDone W;
     counter := counter W; store := store W; trace := trace W |}.

Definition set_ctxDone (b : bool) (W : World) : World :=
  {| status := status W; stateChannel := stateChannel W; ctxDone := b;
     counter := counter W; store := store W; trace := trace W |}.

Definition set_counter (c : Z) (W : World) : World :=
  {| status := status W; stateChannel := stateChannel W; ctxDone := ctxDone W;
     counter := c; store := store W; trace := trace W |}.

Definition set_store (σ : Store) (W : World) : World :=
  {| status := status W; stateChannel := stateChannel W; ctxDone := ctxDone W;
     counter := counter W; store := σ; trace := trace W |}.

Definition emit (o : output) (W : World) : World :=
  {| status := status W; stateChannel := stateChannel W; ctxDone := ctxDone W;
     counter := counter W; store := store W; trace := trace W ++ [o] |}.

(** [func exit(code int, format string, args ...interface{})]. *)
Definition exit (code : Z) (format : string) (args : list arg) (W : World)
    : World :=
  set_status (Exited code) (emit (StderrPrintf format args) W).

(** [resp.StatusCode] on a [*http.Response]. *)
Definition deref_StatusCode (resp : option Response) : exec Z :=
  match resp with
  | Some r => Done (StatusCode r)
  | None => Panicked NilDereference
  end.

(** [func query(endpoint string, queryBuf *bytes.Buffer)]; [post] is what
    [http.Post] returns for this request. *)
Definition query (endpoint : string) (queryBuf : Buffer) (post : PostResult)
    (W : World) : exec unit * World :=
  let W := emit (HttpPost endpoint "application/json" queryBuf) W in
  let '(resp, err) := post in
  let logged : exec World :=
    match err with
    | Some e =>
        code ← deref_StatusCode resp;
        mret (emit (LogPrintf "error: %s, status code: %d\n"
                      [ArgError e; ArgInt code]) W)
    | None => mret W
    end in
  match logged with
  | Panicked p => (Panicked p, W)
  | Done W => (Done (), set_counter (Int64.add (counter W) 1) W)
  end.

(** *** Workers *)

(** Where a worker goroutine stands: before [state := <-stateChannel], at
    the head of its [for] loop holding [state], or returned. *)
Inductive wpc : Type :=
| AwaitState
| Looping (state : State)
| WorkerReturned.

Record Worker : Type := {
  pc : wpc;
  buf : Buffer
}.

(** A goroutine as it starts: [buf := &bytes.Buffer{}]. *)
Definition newWorker : Worker := {| pc := AwaitState; buf := [] |}.

(** What the surroundings decide during one worker iteration: which case
    a [select] takes when a snapshot is queued and [ctx.Done()] is closed
    at once (Go picks among ready cases at random), and the answer of the
    transport. *)
Record WorkerEnv : Type := {
  prefer_recv : bool;
  post : PostResult
}.

(** The outcome of the worker's [select] with a [default] case. *)
Inductive selected : Type :=
| SelRecv (state : State) (rest : list State)
| SelDone
| SelDefault.

Definition worker_select (env : WorkerEnv) (W : World) : selected :=
  match stateChannel W, ctxDone W with
  | s :: rest, true => if prefer_recv env then SelRecv s rest else SelDone
  | s :: rest, false => SelRecv s rest
  | [], true => SelDone
  | [], false => SelDefault
  end.

(** The snapshot that an iteration works with: the one just received, or
    else the one the worker already holds. *)
Definition iterationState (env : WorkerEnv) (W : World) (held : State)
    : State :=
  match worker_select env W with
  | SelRecv s _ => s
  | _ => held
  end.

(** The loop body after the [select], lines 133 to 143. *)
Definition worker_body (opts : Options) (gen : generator State Store)
    (env : WorkerEnv) (state : State) (W : World) (w : Worker)
    : World * Worker :=
  let '(r, b, σ) := Query gen (buf w) state (store W) in
  let W := set_store σ W in
  match r with
  | Panicked p => (set_status (Crashed p) W, {| pc := Looping state; buf := b |})
  | Done (Some e) =>
      if decide (e = io_EOF) then
        (emit (Println "query gen EOF") W, {| pc := WorkerReturned; buf := b |})
      else
        (exit 2 "failed to write generated query: %s" [ArgError e] W,
         {| pc := Looping state; buf := b |})
  | Done None =>
      match query (Web3Endpoint opts) b (post env) W with
      | (Panicked p, W) =>
          (set_status (Crashed p) W, {| pc := Looping state; buf := b |})
      | (Done _, W) => (W, {| pc := Looping state; buf := [] |})
      end
  end.

(** One scheduling of a worker goroutine: the first receive, or one full
    iteration of its loop. A worker that cannot move (process gone,
    returned, or blocked on the empty channel) is left as it is. *)
Definition worker_step (opts : Options) (gen : generator State Store)
    (env : WorkerEnv) (W : World) (w : Worker) : World * Worker :=
  match status W with
  | Running =>
      match pc w with
      | AwaitState =>
          match stateChannel W with
          | s :: rest =>
              (set_stateChannel rest W, {| pc := Looping s; buf := buf w |})
          | [] => (W, w)
          end
      | Looping state =>
          match worker_select env W with
          | SelRecv s rest =>
              worker_body opts gen env s (set_stateChannel rest W) w
          | SelDone => (W, {| pc := WorkerReturned; buf := buf w |})
          | SelDefault => worker_body opts gen env state W w
          end
      | WorkerReturned => (W, w)
      end
  | _ => (W, w)
  end.

(** *** The state producer goroutine *)

(** Where the producer stands: about to call [mkState.Refresh], in the
    5-second select after an empty block, in the select that publishes
    [newState], in the 15-second select, or returned. *)
Inductive ppc : Type :=
| AtRefresh
| Backoff
| Publishing (newState : State)
| Interval
| ProducerReturned.

(** What [mkState.Refresh] returns. *)
Inductive RefreshResult : Type :=
| Refreshed (newState : State)
| RefreshFailed (err : error).

(** What the surroundings decide during one producer step: the result of
    the refresh, whether the timer of the pending [time.After] has fired,
    and which case a [select] takes when two are ready. *)
Record ProducerEnv : Type := {
  refresh : RefreshResult;
  timer_fired : bool;
  prefer_done : bool
}.

Definition producer_step (env : ProducerEnv) (W : World) (p : ppc)
    : World * ppc :=
  match status W with
  | Running =>
      match p with
      | AtRefresh =>
          let W := emit RefreshCall W in
          match refresh env with
          | RefreshFailed err =>
              if decide (err = errEmptyBlock) then (W, Backoff)
              else (exit 2 "failed to refresh state" [] W, AtRefresh)
          | Refreshed newState => (W, Publishing newState)
          end
      | Backoff =>
          (* select { case <-time.After(5s): ; case <-ctx.Done(): return }; continue *)
          match timer_fired env, ctxDone W with
          | true, true =>
              if prefer_done env then (W, ProducerReturned) else (W, AtRefresh)
          | true, false => (W, AtRefresh)
          | false, true => (W, ProducerReturned)
          | false, false => (W, Backoff)
          end
      | Publishing newState =>
          (* select { case stateChannel <- newState: ; case <-ctx.Done(): return } *)
          match bool_decide (length (stateChannel W) < 1)%nat, ctxDone W with
          | true, true =>
              if prefer_done env then (W, ProducerReturned)
              else (set_stateChannel (stateChannel W ++ [newState]) W, Interval)
          | true, false =>
              (set_stateChannel (stateChannel W ++ [newState]) W, Interval)
          | false, true => (W, ProducerReturned)
          | false, false => (W, Publishing newState)
          end
      | Interval =>
          (* select { case <-time.After(15s): ; case <-ctx.Done(): } *)
          match timer_fired env, ctxDone W with
          | false, false => (W, Interval)
          | _, _ => (W, AtRefresh)
          end
      | ProducerReturned => (W, ProducerReturned)
      end
  | _ => (W, p)
  end.

(** *** The reporting loop of [main] *)

(** One round of the final [for] loop of [main], lines 150 to 161, which
    never looks at [ctx]; [prevCounter] is its local variable. *)
Definition reporter_step (W : World) (prevCounter : Z) : World * Z :=
  match status W with
  | Running =>
      let currentCounter := counter W in
      let reqsPerSecond := Int64.sub currentCounter prevCounter in
      let W := emit (LogPrintf "req/s :: %d\n" [ArgInt reqsPerSecond]) W in
      let W :=
        if decide (Z.rem (counter W) 100 = 0) then
          emit (LogPrintf "sent %d requests\n" [ArgInt (counter W)]) W
        else W in
      (W, currentCounter)
  | _ => (W, prevCounter)
  end.

(** *** The whole process *)

Record System : Type := {
  world : World;
  producer : ppc;
  workers : list Worker;
  prevCounter : Z
}.

(** What can happen next: the scheduler runs the producer, worker [i] or
    the reporting loop, or the cancellation signal is raised. [main] only
    defers [cancel()], so that last event stands for a cancellation coming
    from an embedding program. Once the process has exited or crashed,
    nothing happens any more. *)
Inductive event : Type :=
| EvProducer (env : ProducerEnv)
| EvWorker (i : nat) (env : WorkerEnv)
| EvReporter
| EvCancel.

Definition sys_step (opts : Options) (gen : generator State Store)
    (S : System) (e : event) : System :=
  match status (world S) with
  | Running =>
      match e with
      | EvProducer env =>
          let '(W, p) := producer_step env (world S) (producer S) in
          {| world := W; producer := p; workers := workers S;
             prevCounter := prevCounter S |}
      | EvWorker i env =>
          match workers S !! i with
          | Some w =>
              let '(W, w') := worker_step opts gen env (world S) w in
              {| world := W; producer := producer S;
                 workers := <[i := w']> (workers S);
                 prevCounter := prevCounter S |}
          | None => S
          end
      | EvReporter =>
          let '(W, prev) := reporter_step (world S) (prevCounter S) in
          {| world := W; producer := producer S; workers := workers S;
             prevCounter := prev |}
      | EvCancel =>
          {| world := set_ctxDone true (world S); producer := producer S;
             workers := workers S; prevCounter := prevCounter S |}
      end
  | _ => S
  end.

Definition run (opts : Options) (gen : generator State Store)
    (S : System) (es : list event) : System :=
  foldl (sys_step opts gen) S es.

(** [const numWorkers = 250]. *)
Definition numWorkers : nat := 250.

(** The process once [main] has started its goroutines. *)
Definition initSystem (σ : Store) : System :=
  {| world := {| status := Running; stateChannel := []; ctxDone := false;
                 counter := 0; store := σ; trace := [] |};
     producer := AtRefresh;
     workers := replicate numWorkers newWorker;
     prevCounter := 0 |}.

End Process.

Arguments World : clear implicits.
Arguments Worker : clear implicits.
Arguments wpc : clear implicits.
Arguments ppc : clear implicits.
Arguments System : clear implicits.
Arguments event : clear implicits.
Arguments ProducerEnv : clear implicits.
Arguments RefreshResult : clear implicits.

(** ** A concrete instance for examples

    Snapshots carry no data; the shared store is the list of values that
    the random source is going to return. *)

Module Demo.

#[global] Instance api : StateAPI unit (list Z) := {|
  RandInt64 _ σ := match σ with [] => (0, []) | r :: σ' => (r, σ') end
|}.

(** A generator that writes the byte [c] and succeeds. *)
Definition genWrite (c : Byte.byte) : Generator unit (list Z) :=
  λ w _ σ, (None, w ++ [c], σ).

(** A generator that writes an opening brace and succeeds. *)
Definition genOk : Generator unit (list Z) := genWrite Byte.x7b.

(** A generator that reports the end of its input. *)
Definition genEOF : Generator unit (list Z) :=
  λ w _ σ, (Some io_EOF, w, σ).

(** A generator that fails with an ordinary error. *)
Definition genFail : Generator unit (list Z) :=
  λ w _ σ, (Some (errors_New "marshal failed"), w, σ).

Definition entry (m : string) (wt : Z) (f : Generator unit (list Z))
    : RandomQuery unit (list Z) :=
  {| Method := m; Weight := wt; Generate := Some f |}.

Definition registry (qs : list (RandomQuery unit (list Z)))
    : generator unit (list Z) :=
  {| queries := qs; totalWeight := foldr (λ q acc, Weight q + acc) 0 qs |}.

Definition opts (limit : float) : Options :=
  {| Methods := {[ "eth_call" := 2000 ]};
     Web3Endpoint := "http://localhost:8545";
     RateLimit := limit;
     Version := false |}.

(** A process with a single worker that already holds a snapshot. *)
Definition oneWorker (σ : list Z) : System unit (list Z) :=
  {| world := {| status := Running; stateChannel := []; ctxDone := false;
                 counter := 0; store := σ; trace := [] |};
     producer := Interval;
     workers := [ {| pc := Looping (); buf := [] |} ];
     prevCounter := 0 |}.

(** The scenario of the design document: A with weight 100 and B with
    weight 300, each writing its own letter. *)
Definition queryA : RandomQuery unit (list Z) := entry "A" 100 (genWrite Byte.x41).
Definition queryB : RandomQuery unit (list Z) := entry "B" 300 (genWrite Byte.x42).

(** Two entries of weight 1. *)
Definition queryP : RandomQuery unit (list Z) := entry "P" 1 (genWrite Byte.x50).
Definition queryQ : RandomQuery unit (list Z) := entry "Q" 1 (genWrite Byte.x51).

(** Transport answers: success, and a connection failure (no response). *)
Definition postOk : PostResult := (Some {| StatusCode := 200 |}, None).
Definition postRefused : PostResult :=
  (None, Some (errors_New "connection refused")).

End Demo.

(** ** Further vocabulary *)

Section MoreRegistry.
Context {State Store : Type} `{!StateAPI State Store}.

(** Insertion by a linear scan: the new entry goes in front of the first
    entry that is strictly lighter. What [Add] is compared with. *)
Fixpoint insertByWeight (query : RandomQuery State Store)
    (qs : list (RandomQuery State Store)) : list (RandomQuery State Store) :=
  match qs with
  | [] => [query]
  | x :: rest =>
      if Weight x <? Weight query then query :: x :: rest
      else x :: insertByWeight query rest
  end.

(** The running total that the loop of [Query] holds after [k] entries, as
    an exact sum. *)
Definition cumWeight (qs : list (RandomQuery State Store)) (k : nat) : Z :=
  sumWeights (take k qs).

(** By how much the number of draws that stop at position [k] of [n]
    entries differs from the weight of that entry. *)
Definition selectionBias (n k : nat) : Z :=
  if decide (n = 1%nat) then 0
  else if decide (k = 0%nat) then 1
  else if decide (S k = n) then -1
  else 0.

End MoreRegistry.

(** *** Reading the trace and the pool *)

(** Whether an output is a request handed to [http.Post]. *)
Definition isPost (o : output) : bool :=
  match o with
  | HttpPost _ _ _ => true
  | _ => false
  end.

(** Whether an output is a call of [mkState.Refresh]. *)
Definition isRefresh (o : output) : bool :=
  match o with
  | RefreshCall => true
  | _ => false
  end.

(** The number of outputs of a trace that satisfy [f]. *)
Definition countOutputs (f : output → bool) (tr : list output) : nat :=
  length (filter (λ o, f o = true) tr).

(** The rates printed by the reporting loop, oldest first. *)
Definition reportedRates (tr : list output) : list Z :=
  omap (λ o, match o with
             | LogPrintf "req/s :: %d\n" [ArgInt z] => Some z
             | _ => None
             end) tr.

Section MoreProcess.
Context {State Store : Type}.

(** Whether a worker has got past its first receive. *)
Definition hasStarted (w : Worker State) : bool :=
  match pc w with
  | AwaitState => false
  | _ => true
  end.

Definition startedWorkers (ws : list (Worker State)) : nat :=
  length (filter (λ w, hasStarted w = true) ws).

(** One if the producer holds a snapshot that it has not yet sent. *)
Definition unsentSnapshots (p : ppc State) : nat :=
  match p with
  | Publishing _ => 1
  | _ => 0
  end.

(** The snapshots that some part of the process holds: queued, held by a
    worker, or about to be sent by the producer. *)
Definition snapshotsOf (S : System State Store) : list State :=
  stateChannel (world S)
  ++ omap (λ w, match pc w with Looping s => Some s | _ => None end)
       (workers S)
  ++ match producer S with Publishing s => [s] | _ => [] end.

(** Every request of a trace goes to [endpoint] as JSON. *)
Definition postsTo (endpoint : string) (tr : list output) : Prop :=
  Forall (λ o, match o with
               | HttpPost ep ct _ => ep = endpoint ∧ ct = "application/json"
               | _ => True
               end) tr.

(** Workers at the head of their loop, or before it, hold an empty
    buffer. *)
Definition buffersReset (ws : list (Worker State)) : Prop :=
  Forall (λ w, pc w = WorkerReturned ∨ buf w = []) ws.

(** Started workers, queued snapshots and the snapshot the producer is
    about to send, against the calls of [mkState.Refresh] so far. *)
Definition startsWithinRefreshes (S : System State Store) : Prop :=
  (startedWorkers (workers S) + length (stateChannel (world S))
   + unsentSnapshots (producer S)
   ≤ countOutputs isRefresh (trace (world S)))%nat.

End MoreProcess.

Section MoreRuns.
Context {State Store : Type} `{!StateAPI State Store}.

(** The snapshots that the calls of [mkState.Refresh] return while the
    schedule [es] runs from [S]: the producer calls it when it is scheduled
    at the head of its loop in a live process. *)
Fixpoint refreshedDuring (opts : Options) (gen : generator State Store)
    (S : System State Store) (es : list (event State)) : list State :=
  match es with
  | [] => []
  | e :: es' =>
      match e, status (world S), producer S with
      | EvProducer env, Running, AtRefresh =>
          match refresh env with
          | Refreshed s => [s]
          | RefreshFailed _ => []
          end
      | _, _, _ => []
      end ++ refreshedDuring opts gen (sys_step opts gen S e) es'
  end.

End MoreRuns.


(** ** Further concrete values for examples *)

Module Scenario.

(** Four entries of weight 2^62: their weights add up to 2^64. *)
Definition quarter (m : string) : RandomQuery unit (list Z) :=
  Demo.entry m (2 ^ 62) Demo.genOk.

Definition quarters : list (RandomQuery unit (list Z)) :=
  [quarter "a"; quarter "b"; quarter "c"; quarter "d"].

(** An entry of weight zero, as [-m eth_call:0] would ask for. *)
Definition weightless : RandomQuery unit (list Z) :=
  Demo.entry "eth_call" 0 Demo.genOk.

(** Answers of the surroundings to the producer: a refresh that succeeds,
    one that fails on the connection, and a timer that has fired. *)
Definition refreshOk : ProducerEnv unit :=
  {| refresh := Refreshed (); timer_fired := true; prefer_done := false |}.


(** An answer of the surroundings to a worker whose send succeeds. *)
Definition sendOk : WorkerEnv :=
  {| prefer_recv := true; post := Demo.postOk |}.

(** A schedule in which the producer publishes one snapshot and the first
    worker takes it and dispatches two requests. *)
Definition warmUp : list (event unit) :=
  [EvProducer refreshOk; EvProducer refreshOk; EvWorker 0 sendOk;
   EvWorker 0 sendOk; EvReporter; EvWorker 0 sendOk].

(** A process in which one snapshot is queued and two workers wait for
    their first. *)
Definition twoWaiting : System unit (list Z) :=
  {| world := {| status := Running; stateChannel := [()]; ctxDone := false;
                 counter := 0; store := [5]; trace := [RefreshCall] |};
     producer := Interval;
     workers := [newWorker; newWorker];
     prevCounter := 0 |}.

End Scenario.

(** ** The worker goroutine, statement by statement

    [worker_step] runs a whole iteration of the loop at once. Between the
    statements of an iteration the other goroutines run too: the model
    below gives every statement of lines 119 to 143 and of [query] its own
    step, so that the reporting loop, the producer and the other workers
    can be scheduled in between. *)

Section FineGrained.
Context {State Store : Type} `{!StateAPI State Store}.

(** The statement that a worker goroutine executes next: the first
    receive (:119), the [select] (:123), the call of [gen.Query] (:133),
    the call of [http.Post] inside [query] (:170), the error check with
    its log line (:171-173), the increment of the counter (:175),
    [buf.Reset()] (:143), or nothing when it has returned. After
    [http.Post] the worker holds what the call returned. *)
Inductive fpc : Type :=
| AtFirstReceive
| AtSelect (state : State)
| AtQuery (state : State)
| AtPost (state : State)
| AtErrCheck (state : State) (answer : PostResult)
| AtCount (state : State)
| AtReset (state : State)
| HasReturned.

Record FineWorker : Type := {
  point : fpc;
  buffer : Buffer
}.

Definition newFineWorker : FineWorker :=
  {| point := AtFirstReceive; buffer := [] |}.

(** One statement of a worker goroutine in a live process. *)
Definition fine_worker_step (opts : Options) (gen : generator State Store)
    (env : WorkerEnv) (W : World State Store) (w : FineWorker)
    : World State Store * FineWorker :=
  match status W with
  | Running =>
      match point w with
      | AtFirstReceive =>
          match stateChannel W with
          | s :: rest =>
              (set_stateChannel rest W,
               {| point := AtSelect s; buffer := buffer w |})
          | [] => (W, w)
          end
      | AtSelect held =>
          match worker_select env W with
          | SelRecv s rest =>
              (set_stateChannel rest W,
               {| point := AtQuery s; buffer := buffer w |})
          | SelDone => (W, {| point := HasReturned; buffer := buffer w |})
          | SelDefault => (W, {| point := AtQuery held; buffer := buffer w |})
          end
      | AtQuery state =>
          let '(r, b, σ) := Query gen (buffer w) state (store W) in
          let W := set_store σ W in
          match r with
          | Panicked p =>
              (set_status (Crashed p) W,
               {| point := AtQuery state; buffer := b |})
          | Done (Some e) =>
              if decide (e = io_EOF) then
                (emit (Println "query gen EOF") W,
                 {| point := HasReturned; buffer := b |})
              else
                (exit 2 "failed to write generated query: %s" [ArgError e] W,
                 {| point := AtQuery state; buffer := b |})
          | Done None => (W, {| point := AtPost state; buffer := b |})
          end
      | AtPost state =>
          (emit (HttpPost (Web3Endpoint opts) "application/json" (buffer w)) W,
           {| point := AtErrCheck state (post env); buffer := buffer w |})
      | AtErrCheck state (resp, err) =>
          match err with
          | Some e =>
              match deref_StatusCode resp with
              | Done code =>
                  (emit (LogPrintf "error: %s, status code: %d\n"
                           [ArgError e; ArgInt code]) W,
                   {| point := AtCount state; buffer := buffer w |})
              | Panicked p => (set_status (Crashed p) W, w)
              end
          | None => (W, {| point := AtCount state; buffer := buffer w |})
          end
      | AtCount state =>
          (set_counter (Int64.add (counter W) 1) W,
           {| point := AtReset state; buffer := buffer w |})
      | AtReset state => (W, {| point := AtSelect state; buffer := [] |})
      | HasReturned => (W, w)
      end
  | _ => (W, w)
  end.

(** The process with its workers seen statement by statement. *)
Record FineSystem : Type := {
  fworld : World State Store;
  fproducer : ppc State;
  fworkers : list FineWorker;
  fprevCounter : Z
}.

Definition fine_sys_step (opts : Options) (gen : generator State Store)
    (S : FineSystem) (e : event State) : FineSystem :=
  match status (fworld S) with
  | Running =>
      match e with
      | EvProducer env =>
          let '(W, p) := producer_step env (fworld S) (fproducer S) in
          {| fworld := W; fproducer := p; fworkers := fworkers S;
             fprevCounter := fprevCounter S |}
      | EvWorker i env =>
          match fworkers S !! i with
          | Some w =>
              let '(W, w') := fine_worker_step opts gen env (fworld S) w in
              {| fworld := W; fproducer := fproducer S;
                 fworkers := <[i := w']> (fworkers S);
                 fprevCounter := fprevCounter S |}
          | None => S
          end
      | EvReporter =>
          let '(W, prev) := reporter_step (fworld S) (fprevCounter S) in
          {| fworld := W; fproducer := fproducer S; fworkers := fworkers S;
             fprevCounter := prev |}
      | EvCancel =>
          {| fworld := set_ctxDone true (fworld S); fproducer := fproducer S;
             fworkers := fworkers S; fprevCounter := fprevCounter S |}
      end
  | _ => S
  end.

Definition fine_run (opts : Options) (gen : generator State Store)
    (S : FineSystem) (es : list (event State)) : FineSystem :=
  foldl (fine_sys_step opts gen) S es.

(** The process once [main] has started its goroutines. *)
Definition fineInit (σ : Store) : FineSystem :=
  {| fworld := {| status := Running; stateChannel := []; ctxDone := false;
                  counter := 0; store := σ; trace := [] |};
     fproducer := AtRefresh;
     fworkers := replicate numWorkers newFineWorker;
     fprevCounter := 0 |}.

(** *** Whole iterations *)

(** A worker between iterations, as [worker_step] sees it. *)
Definition atBoundary (w : FineWorker) : option (Worker State) :=
  match point w with
  | AtFirstReceive => Some {| pc := AwaitState; buf := buffer w |}
  | AtSelect s => Some {| pc := Looping s; buf := buffer w |}
  | HasReturned => Some {| pc := WorkerReturned; buf := buffer w |}
  | _ => None
  end.

Definition refine (w : Worker State) : FineWorker :=
  {| point := match pc w with
              | AwaitState => AtFirstReceive
              | Looping s => AtSelect s
              | WorkerReturned => HasReturned
              end;
     buffer := buf w |}.

(** Runs a worker on its own, for at most [n] statements, until it stands
    between two iterations again. *)
Fixpoint fine_finish (n : nat) (opts : Options) (gen : generator State Store)
    (env : WorkerEnv) (W : World State Store) (w : FineWorker)
    : World State Store * FineWorker :=
  match n with
  | O => (W, w)
  | S n =>
      match atBoundary w with
      | Some _ => (W, w)
      | None =>
          let '(W', w') := fine_worker_step opts gen env W w in
          fine_finish n opts gen env W' w'
      end
  end.

(** One statement and then the rest of the iteration, without any other
    goroutine in between. *)
Definition fine_iteration (opts : Options) (gen : generator State Store)
    (env : WorkerEnv) (W : World State Store) (w : FineWorker)
    : World State Store * FineWorker :=
  let '(W', w') := fine_worker_step opts gen env W w in
  fine_finish 5 opts gen env W' w'.

(** *** Reading the pool *)

(** Whether a worker has issued a request that it has not counted yet. *)
Definition sentNotCounted (w : FineWorker) : bool :=
  match point w with
  | AtErrCheck _ _ | AtCount _ => true
  | _ => false
  end.

Definition inFlight (ws : list FineWorker) : nat :=
  length (filter (λ w, sentNotCounted w = true) ws).

Definition isReturned (w : FineWorker) : bool :=
  match point w with
  | HasReturned => true
  | _ => false
  end.

Definition returnedWorkers (ws : list FineWorker) : nat :=
  length (filter (λ w, isReturned w = true) ws).

(** The counter against the requests of the trace: within the width of the
    counter, the requests issued are those counted plus those in flight. *)
Definition counterTrailsPosts (S : FineSystem) : Prop :=
  Int64.wrap (Z.of_nat (countOutputs isPost (trace (fworld S))))
  = Int64.wrap (counter (fworld S) + Z.of_nat (inFlight (fworkers S))) ∧
  (inFlight (fworkers S) ≤ numWorkers)%nat.

End FineGrained.

Arguments fpc : clear implicits.
Arguments FineWorker : clear implicits.
Arguments FineSystem : clear implicits.

(** Whether an event is the raising of the cancellation signal. *)
Definition isCancel {State : Type} (e : event State) : bool :=
  match e with
  | EvCancel => true
  | _ => false
  end.

(** Whether an output is the line that a worker prints on [io.EOF]. *)
Definition isEOFLine (o : output) : bool :=
  match o with
  | Println "query gen EOF" => true
  | _ => false
  end.

(** Schedules of the statement-level process. *)
Module Interleaving.

(** The producer publishes one snapshot; the first worker takes it, builds
    a request and hands it to the transport; the reporting loop then runs
    before the worker has counted the request. *)
Definition reportInBetween : list (event unit) :=
  [EvProducer Scenario.refreshOk; EvProducer Scenario.refreshOk;
   EvWorker 0 Scenario.sendOk; EvWorker 0 Scenario.sendOk;
   EvWorker 0 Scenario.sendOk; EvWorker 0 Scenario.sendOk; EvReporter].

(** A registry whose only generator reports the end of its input. *)
Definition drained : generator unit (list Z) :=
  Demo.registry [Demo.entry "eth_call" 1 Demo.genEOF].

(** The producer publishes one snapshot; the first worker takes it and
    asks the registry for a request once. *)
Definition oneQuery : list (event unit) :=
  [EvProducer Scenario.refreshOk; EvProducer Scenario.refreshOk;
   EvWorker 0 Scenario.sendOk; EvWorker 0 Scenario.sendOk;
   EvWorker 0 Scenario.sendOk].

End Interleaving.

(** * Properties *)

(** ** Integers, slices and the search *)

Lemma wrap_in_range z : Int64.in_range z → Int64.wrap z = z.
Proof.
  unfold Int64.in_range, Int64.wrap, Int64.min_int, Int64.max_int.
  intros H. rewrite Z.mod_small; lia.
Qed.

Lemma wrap_add_wrap a b : Int64.wrap (Int64.wrap a + b) = Int64.wrap (a + b).
Proof.
  unfold Int64.wrap.
  replace ((a + 2 ^ 63) `mod` 2 ^ 64 - 2 ^ 63 + b + 2 ^ 63)
    with ((a + 2 ^ 63) `mod` 2 ^ 64 + b) by lia.
  rewrite Zplus_mod_idemp_l. f_equal. f_equal. lia.
Qed.

(** The probe position of the search lies inside the open interval. *)
Lemma midpoint_between (i j : nat) :
  (i < j)%nat → (i ≤ (i + j) / 2 < j)%nat.
Proof.
  intros Hij. pose proof (Nat.div_mod_eq (i + j) 2).
  pose proof (Nat.mod_upper_bound (i + j) 2). lia.
Qed.

(** [sort.Search] on a predicate that is false on a prefix and true on the
    rest returns the first position where it is true. *)
Lemma search_loop_spec (f : nat → exec bool) (p : nat → bool) (i j : nat) :
  (i ≤ j)%nat →
  (∀ k, (i ≤ k < j)%nat → f k = Done (p k)) →
  (∀ a b, (i ≤ a ≤ b)%nat → (b < j)%nat → p a = true → p b = true) →
  ∃ r, Sort.search_loop f i j = Done r ∧ (i ≤ r ≤ j)%nat ∧
       (∀ k, (i ≤ k < r)%nat → p k = false) ∧
       (∀ k, (r ≤ k < j)%nat → p k = true).
Proof.
  funelim (Sort.search_loop f i j); intros Hij Hf Hmono.
  - exists i. split; [done|]. split; [lia|]. split; intros k Hk; lia.
  - set (h := ((i + j) / 2)%nat) in *.
    assert (Hh : (i ≤ h < j)%nat) by (by apply midpoint_between).
    assert (Hph : p h = true).
    { specialize (Hf h Hh). congruence. }
    destruct (H p) as (r & Hr & Hb & Hlo & Hhi).
    + lia.
    + intros k Hk. apply Hf. lia.
    + intros a b Hab Hbh. apply Hmono; lia.
    + exists r. split; [done|]. split; [lia|]. split; [done|].
      intros k Hk. destruct (decide (k < h)%nat).
      * apply Hhi. lia.
      * apply (Hmono h k); [lia | lia | done].
  - set (h := ((i + j) / 2)%nat) in *.
    assert (Hh : (i ≤ h < j)%nat) by (by apply midpoint_between).
    assert (Hph : p h = false).
    { specialize (Hf h Hh). congruence. }
    destruct (H p) as (r & Hr & Hb & Hlo & Hhi).
    + lia.
    + intros k Hk. apply Hf. lia.
    + intros a b Hab Hbh. apply Hmono; lia.
    + exists r. split; [done|]. split; [lia|]. split; [|done].
      intros k Hk. destruct (decide (k ≤ h)%nat).
      * destruct (p k) eqn:Hpk; [|done].
        rewrite <- Hph. symmetry. apply (Hmono k h); [lia | lia | done].
      * apply Hlo. lia.
  - exfalso.
    set (h := ((i + j) / 2)%nat) in *.
    assert (Hh : (i ≤ h < j)%nat) by (by apply midpoint_between).
    specialize (Hf h Hh). congruence.
Qed.

(** Appending a placeholder, shifting the tail one slot up from [r] and
    storing at [r] is an insertion at position [r]. *)
Lemma shift_then_store {A} (l : list A) (z x : A) (r : nat) :
  (r ≤ length l)%nat →
  Slice.copy_within (l ++ [z]) (r + 1) r ≫= (λ s, Slice.store s r x)
  = Done (take r l ++ x :: drop r l).
Proof.
  intros Hr. unfold Slice.copy_within, Slice.from.
  rewrite !length_app. simpl.
  rewrite !decide_True by lia. simpl.
  unfold Slice.copy. rewrite !length_drop, !length_app. simpl.
  replace ((length l + 1 - (r + 1)) `min` (length l + 1 - r))%nat
    with (length l - r)%nat by lia.
  rewrite (drop_ge (drop (r + 1) (l ++ [z])) (length l - r))
    by (rewrite length_drop, length_app; simpl; lia).
  rewrite app_nil_r.
  rewrite (drop_app_le l [z] r) by lia.
  rewrite (take_app_length' (drop r l) [z]) by (rewrite length_drop; lia).
  destruct (lookup_lt_is_Some_2 (l ++ [z]) r) as [y Hy].
  { rewrite length_app. simpl. lia. }
  replace (r + 1)%nat with (S r) by lia.
  rewrite (take_S_r _ _ _ Hy), (take_app_le l [z] r) by lia.
  unfold Slice.store.
  rewrite decide_True by (rewrite !length_app, length_take; simpl; lia).
  f_equal. rewrite insert_app_l by (rewrite length_app, length_take; simpl; lia).
  rewrite insert_app_r_alt by (rewrite length_take; lia).
  rewrite length_take. replace (r - r `min` length l)%nat with 0%nat by lia.
  simpl. by rewrite <- app_assoc.
Qed.

Section RegistryFacts.
Context {State Store : Type} `{!StateAPI State Store}.
Implicit Types (q : RandomQuery State Store) (qs : list (RandomQuery State Store)).


Lemma StronglySorted_lookup_lt {A} (R : relation A) (l : list A) a b x y :
  StronglySorted R l → (a < b)%nat → l !! a = Some x → l !! b = Some y → R x y.
Proof.
  intros Hs. revert a b. induction Hs as [|z l Hs IH Hall]; intros a b Hab Ha Hb.
  - done.
  - destruct b as [|b]; [lia|]. destruct a as [|a]; simpl in *.
    + injection Ha as ->. rewrite Forall_forall in Hall.
      apply Hall. eapply list_elem_of_lookup_2; eauto.
    + apply (IH a b); [lia | done | done].
Qed.

Lemma lessThan_lighter qs q k :
  (k < length qs)%nat → lessThan qs q k = Done (lighter qs q k).
Proof.
  intros Hk. unfold lessThan, lighter, Slice.index.
  destruct (lookup_lt_is_Some_2 qs k Hk) as [x Hx]. by rewrite Hx.
Qed.

(** On a slice kept heaviest first, [Add] of a positive weight inserts the
    entry after the entries at least as heavy and before the lighter ones. *)
Lemma Add_inserts g q :
  StronglySorted heavierFirst (queries g) → 0 < Weight q →
  ∃ r, (r ≤ length (queries g))%nat ∧
    Add g q = Done {| queries := take r (queries g) ++ q :: drop r (queries g);
                      totalWeight := Int64.add (totalWeight g) (Weight q) |} ∧
    Forall (λ x, Weight q ≤ Weight x) (take r (queries g)) ∧
    Forall (λ x, Weight x < Weight q) (drop r (queries g)).
Proof.
  intros Hs Hpos. unfold Add.
  set (qs := queries g) in *.
  assert (Hqs' : match qs with [] => [zeroQuery] | _ :: _ => qs ++ [zeroQuery] end
                 = qs ++ [zeroQuery]) by (by destruct qs).
  rewrite Hqs'. clear Hqs'.
  set (qs' := qs ++ [zeroQuery]).
  assert (Hlen : length qs' = S (length qs)).
  { subst qs'. rewrite length_app. simpl. lia. }
  destruct (search_loop_spec (lessThan qs' q) (lighter qs' q) 0 (length qs'))
    as (r & Hr & Hb & Hlo & Hhi).
  - lia.
  - intros k Hk. apply lessThan_lighter. lia.
  - intros a b Hab Hb. unfold lighter.
    destruct (lookup_lt_is_Some_2 qs' a ltac:(lia)) as [x Hx].
    destruct (lookup_lt_is_Some_2 qs' b ltac:(lia)) as [y Hy].
    rewrite Hx, Hy. intros Hxa. apply Z.ltb_lt in Hxa. apply Z.ltb_lt.
    destruct (decide (a = b)) as [->|Hne]; [congruence|].
    destruct (decide (b = length qs)) as [->|Hbn].
    + subst qs'. rewrite lookup_app_r in Hy by lia.
      rewrite Nat.sub_diag in Hy. simpl in Hy. injection Hy as <-. done.
    + subst qs'. rewrite lookup_app_l in Hx, Hy by lia.
      pose proof (StronglySorted_lookup_lt heavierFirst qs a b x y Hs
                    ltac:(lia) Hx Hy) as Hxy.
      unfold heavierFirst in Hxy. lia.
  - assert (Hrn : (r ≤ length qs)%nat).
    { destruct (decide (r ≤ length qs)%nat) as [|Hgt]; [done|].
      specialize (Hlo (length qs) ltac:(lia)). unfold lighter in Hlo.
      subst qs'. rewrite lookup_app_r in Hlo by lia.
      rewrite Nat.sub_diag in Hlo. simpl in Hlo.
      apply Z.ltb_ge in Hlo. lia. }
    exists r. split; [done|]. split.
    + unfold Sort.Search. rewrite Hr. simpl.
      pose proof (shift_then_store qs zeroQuery q r Hrn) as Hshift.
      fold qs' in Hshift.
      destruct (Slice.copy_within qs' (r + 1) r) as [s|p]; simpl in *;
        [|done].
      rewrite Hshift. done.
    + split; apply Forall_forall; intros x Hx;
        apply list_elem_of_lookup in Hx as [k Hk].
      * pose proof (lookup_lt_Some _ _ _ Hk) as Hlt.
        rewrite length_take in Hlt.
        rewrite lookup_take_lt in Hk by lia.
        specialize (Hlo k ltac:(lia)). unfold lighter in Hlo.
        subst qs'. rewrite lookup_app_l, Hk in Hlo by lia.
        apply Z.ltb_ge in Hlo. done.
      * pose proof (lookup_lt_Some _ _ _ Hk) as Hlt.
        rewrite length_drop in Hlt. rewrite lookup_drop in Hk.
        specialize (Hhi (r + k)%nat ltac:(lia)). unfold lighter in Hhi.
        subst qs'. rewrite lookup_app_l, Hk in Hhi by lia.
        apply Z.ltb_lt in Hhi. done.
Qed.

Lemma sumWeights_perm qs1 qs2 : qs1 ≡ₚ qs2 → sumWeights qs1 = sumWeights qs2.
Proof. induction 1; simpl; lia. Qed.

Lemma sumWeights_nonneg qs :
  Forall (λ q, 0 < Weight q) qs → 0 ≤ sumWeights qs.
Proof. induction 1; simpl; lia. Qed.

Lemma AddAll_cons g q qs :
  AddAll g (q :: qs) = Add g q ≫= (λ g', AddAll g' qs).
Proof.
  unfold AddAll. simpl. destruct (Add g q) as [g'|p]; simpl; [done|].
  induction qs as [|q' qs IH]; simpl; done.
Qed.

(** Invariant of a sequence of [Add] calls with positive weights. *)
Lemma AddAll_positive qs : ∀ g t,
  StronglySorted heavierFirst (queries g) →
  totalWeight g = Int64.wrap t →
  Forall (λ q, 0 < Weight q) qs →
  ∃ g', AddAll g qs = Done g' ∧
    StronglySorted heavierFirst (queries g') ∧
    queries g' ≡ₚ queries g ++ qs ∧
    totalWeight g' = Int64.wrap (t + sumWeights qs).
Proof.
  induction qs as [|q qs IH]; intros g t Hs Ht Hpos.
  - exists g. simpl. rewrite app_nil_r, Z.add_0_r. done.
  - apply Forall_cons in Hpos as [Hq Hpos].
    destruct (Add_inserts g q Hs Hq) as (r & Hr & HAdd & Hlo & Hhi).
    rewrite AddAll_cons, HAdd. simpl.
    set (g1 := {| queries := take r (queries g) ++ q :: drop r (queries g);
                  totalWeight := Int64.add (totalWeight g) (Weight q) |}).
    destruct (IH g1 (t + Weight q)) as (g' & HAll & Hs' & Hperm & Htot).
    + simpl. rewrite <- (take_drop r (queries g)) in Hs.
      apply StronglySorted_app in Hs as (Hcross & Hs1 & Hs2).
      apply StronglySorted_app_2.
      * intros x1 x2 Hx1 Hx2. rewrite Forall_forall in Hlo, Hhi.
        apply elem_of_cons in Hx2 as [->|Hx2]; unfold heavierFirst.
        -- by apply Hlo.
        -- by apply Hcross.
      * done.
      * apply StronglySorted_cons. split; [|done].
        eapply Forall_impl; [exact Hhi|]. intros x Hx. unfold heavierFirst. simpl in Hx. lia.
    + simpl. unfold Int64.add. rewrite Ht. apply wrap_add_wrap.
    + done.
    + exists g'. split; [done|]. split; [done|]. split.
      * rewrite Hperm. simpl.
        rewrite <- (take_drop r (queries g)) at 3.
        rewrite <- !app_assoc. simpl.
        rewrite <- !Permutation_middle. done.
      * rewrite Htot. simpl. f_equal. lia.
Qed.

(** The position of the entry that the loop of [Query] stops at is the
    first one whose running total reaches the draw. *)
Lemma walk_first_cover qs : ∀ cur d i k q,
  Forall (λ q, 0 < Weight q) qs → 0 ≤ cur →
  cur + sumWeights qs ≤ Int64.max_int →
  walk qs cur d i = Some (k, q) ↔
  ∃ j, k = (i + j)%nat ∧ qs !! j = Some q ∧
       d ≤ cur + sumWeights (take (S j) qs) ∧
       (j = 0%nat ∨ cur + sumWeights (take j qs) < d).
Proof.
  induction qs as [|q0 rest IH]; intros cur d i k q Hpos Hcur Hmax.
  - simpl. split; [done|]. intros (j & _ & Hj & _). done.
  - apply Forall_cons in Hpos as [Hq0 Hpos]. simpl in Hmax.
    pose proof (sumWeights_nonneg rest Hpos) as Hnn.
    simpl. unfold Int64.add.
    rewrite wrap_in_range
      by (unfold Int64.in_range, Int64.min_int, Int64.max_int in *; lia).
    destruct (cur + Weight q0 >=? d) eqn:Hcmp.
    + apply Z.geb_le in Hcmp. split.
      * intros [= <- <-]. exists 0%nat. simpl. repeat split; [lia | lia | by left].
      * intros (j & -> & Hj & Hd & Hfirst). destruct j as [|j].
        -- simpl in Hj. injection Hj as <-. by rewrite Nat.add_0_r.
        -- exfalso. destruct Hfirst as [|Hlt]; [done|]. simpl in Hlt.
           pose proof (sumWeights_nonneg (take j rest)
                         (Forall_take _ _ _ Hpos)). lia.
    + assert (Hlt : cur + Weight q0 < d).
      { destruct (Z.geb_spec (cur + Weight q0) d); [done | lia]. }
      rewrite (IH (cur + Weight q0) d (S i) k q Hpos) by lia. split.
      * intros (j & -> & Hj & Hd & Hfirst). exists (S j). simpl.
        repeat split; [lia | done | lia |]. right.
        destruct Hfirst as [->|Hf]; simpl; lia.
      * intros (j & -> & Hj & Hd & Hfirst). destruct j as [|j].
        { simpl in Hd. lia. }
        exists j. simpl in *. repeat split; [lia | done | lia |].
        destruct Hfirst as [|Hf]; [done|]. right. lia.
Qed.

(** For a draw not above the sum of the weights, the loop stops at some
    entry. *)
Lemma walk_covers qs : ∀ cur d i,
  Forall (λ q, 0 < Weight q) qs → qs ≠ [] → 0 ≤ cur →
  cur + sumWeights qs ≤ Int64.max_int →
  d ≤ cur + sumWeights qs →
  ∃ k q, walk qs cur d i = Some (k, q) ∧ q ∈ qs.
Proof.
  induction qs as [|q0 rest IH]; intros cur d i Hpos Hne Hcur Hmax Hd; [done|].
  apply Forall_cons in Hpos as [Hq0 Hpos]. simpl in Hmax, Hd.
  pose proof (sumWeights_nonneg rest Hpos) as Hnn.
  simpl. unfold Int64.add.
  rewrite wrap_in_range
    by (unfold Int64.in_range, Int64.min_int, Int64.max_int in *; lia).
  destruct (Z.geb_spec (cur + Weight q0) d) as [Hge|Hlt].
  - exists i, q0. split; [done|]. apply elem_of_cons. by left.
  - destruct rest as [|q1 rest]; [simpl in *; lia|].
    destruct (IH (cur + Weight q0) d (S i) Hpos) as (k & q & Hw & Hin);
      [done | lia | lia | lia |].
    exists k, q. split; [done|]. apply elem_of_cons. by right.
Qed.


Lemma AddAll_sorted_descending qs :
  Forall (λ q, 0 < Weight q) qs →
  ∃ g, AddAll emptyGenerator qs = Done g ∧
       StronglySorted heavierFirst (queries g).
Proof.
  intros Hpos.
  destruct (AddAll_positive qs emptyGenerator 0) as (g & Hg & Hs & _);
    [constructor | done | done |].
  by exists g.
Qed.

(** With at least two entries the draw equal to the first weight is a
    possible draw, and every draw up to it stops at the first entry. *)
Lemma first_entry_takes_boundary_draw g q0 rest d :
  queries g = q0 :: rest → Int64.in_range (Weight q0) → d ≤ Weight q0 →
  selectedIndex g d = Some 0%nat.
Proof.
  intros Hq Hr Hd. unfold selectedIndex. rewrite Hq. simpl.
  unfold Int64.add. rewrite Z.add_0_l, wrap_in_range by done.
  destruct (Z.geb_spec (Weight q0) d); [done | lia].
Qed.

(** C6: [Query] on a registry without entries returns the error "no query
    generators available" and leaves the writer and the shared store (hence
    the random source) exactly as they were; [Query] never returns or
    updates the registry, which is read only. *)
Theorem Query_empty_registry_no_effect g (w : Buffer) (s : State) (σ : Store) :
  queries g = [] →
  Query g w s σ
  = (Done (Some (errors_New "no query generators available")), w, σ).
Proof. intros Hq. unfold Query. by rewrite Hq. Qed.

(** C4: on a non-empty registry of positive weights whose [totalWeight] is
    the sum of the weights (an int64 value), a non-negative random value is
    reduced to a draw in [0, totalWeight), the loop stops at an entry of the
    registry, and [Query] is the call of that entry's generator: neither the
    division panic nor the final panic is reached. *)
Theorem Query_walk_reaches_generator g (w : Buffer) (s : State) (σ : Store) :
  queries g ≠ [] →
  Forall (λ q, 0 < Weight q) (queries g) →
  totalWeight g = sumWeights (queries g) →
  Int64.in_range (totalWeight g) →
  0 ≤ (RandInt64 s σ).1 →
  ∃ weight k q,
    Int64.rem (RandInt64 s σ).1 (totalWeight g) = Some weight ∧
    0 ≤ weight < totalWeight g ∧
    walk (queries g) 0 weight 0%nat = Some (k, q) ∧
    q ∈ queries g ∧
    Query g w s σ = call (Generate q) w s (RandInt64 s σ).2.
Proof.
  intros Hne Hpos Htot Hrange Hr.
  assert (HT : 0 < totalWeight g).
  { rewrite Htot. destruct (queries g) as [|q0 rest]; [done|].
    apply Forall_cons in Hpos as [Hq0 Hpos].
    pose proof (sumWeights_nonneg rest Hpos). simpl. lia. }
  destruct (RandInt64 s σ) as [r σ'] eqn:Hrand. simpl in *.
  pose proof (Z.rem_bound_pos r (totalWeight g) Hr HT) as Hrem.
  set (weight := Z.rem r (totalWeight g)) in *.
  assert (Hwrap : Int64.rem r (totalWeight g) = Some weight).
  { unfold Int64.rem. rewrite decide_False by lia. f_equal.
    apply wrap_in_range.
    unfold Int64.in_range, Int64.min_int, Int64.max_int in *. lia. }
  destruct (walk_covers (queries g) 0 weight 0%nat Hpos Hne)
    as (k & q & Hwalk & Hin).
  { done. }
  { rewrite <- Htot. unfold Int64.in_range in Hrange. lia. }
  { lia. }
  exists weight, k, q. repeat split; [done | lia | lia | done | done |].
  unfold Query. rewrite decide_False by (by destruct (queries g)).
  rewrite Hrand, Hwrap, Hwalk. done.
Qed.

(** C10, amended: after any sequence of [Add] calls whose weights are all
    positive and sum to at most the largest int64, every call completes, the
    registry holds exactly the added entries as a multiset (nothing lost,
    nothing duplicated, no placeholder left) and [totalWeight] equals the sum
    of the stored [Weight] fields. *)
Theorem AddAll_positive_faithful qs :
  Forall (λ q, 0 < Weight q) qs →
  sumWeights qs ≤ Int64.max_int →
  registryFaithful qs.
Proof.
  intros Hpos Hmax.
  destruct (AddAll_positive qs emptyGenerator 0) as (g & Hg & _ & Hperm & Htot);
    [constructor | done | done |].
  exists g. simpl in Hperm. split; [done|]. split; [done|].
  rewrite Htot, (sumWeights_perm _ _ Hperm). simpl.
  apply wrap_in_range. pose proof (sumWeights_nonneg qs Hpos).
  unfold Int64.in_range, Int64.min_int, Int64.max_int in *. lia.
Qed.

End RegistryFacts.

(** ** The dispatch loop *)

Section ProcessFacts.
Context {State Store : Type} `{!StateAPI State Store}.
Implicit Types (W : World State Store) (w : Worker State) (S : System State Store).

Lemma query_success endpoint queryBuf resp W :
  query endpoint queryBuf (resp, None) W
  = (Done (), set_counter (Int64.add (counter W) 1)
                (emit (HttpPost endpoint "application/json" queryBuf) W)).
Proof. done. Qed.

Lemma query_failure_with_response endpoint queryBuf r e W :
  query endpoint queryBuf (Some r, Some e) W
  = (Done (),
     set_counter (Int64.add (counter W) 1)
       (emit (LogPrintf "error: %s, status code: %d\n"
                [ArgError e; ArgInt (StatusCode r)])
          (emit (HttpPost endpoint "application/json" queryBuf) W))).
Proof. done. Qed.

Lemma query_failure_without_response endpoint queryBuf e W :
  query endpoint queryBuf (None, Some e) W
  = (Panicked NilDereference,
     emit (HttpPost endpoint "application/json" queryBuf) W).
Proof. done. Qed.

Lemma sys_step_not_running opts gen S e :
  status (world S) ≠ Running → sys_step opts gen S e = S.
Proof. intros H. unfold sys_step. by destruct (status (world S)). Qed.

Lemma run_not_running opts gen es : ∀ S,
  status (world S) ≠ Running → run opts gen S es = S.
Proof.
  induction es as [|e es IH]; intros S H; [done|].
  unfold run in *. simpl. rewrite sys_step_not_running by done. by apply IH.
Qed.

Lemma run_snoc opts gen S es e :
  run opts gen S (es ++ [e]) = sys_step opts gen (run opts gen S es) e.
Proof. unfold run. by rewrite foldl_app. Qed.

Lemma returned_worker_idle opts gen S i env w :
  workers S !! i = Some w → pc w = WorkerReturned →
  sys_step opts gen S (EvWorker i env) = S.
Proof.
  intros Hi Hpc. unfold sys_step. destruct (status (world S)) eqn:Hst; [|done..].
  rewrite Hi. unfold worker_step. rewrite Hst, Hpc.
  rewrite list_insert_id by done. by destruct S.
Qed.

Lemma returned_worker_stays opts gen i e S :
  pc <$> workers S !! i = Some WorkerReturned →
  pc <$> workers (sys_step opts gen S e) !! i = Some WorkerReturned.
Proof.
  intros Hi. unfold sys_step. destruct (status (world S)) eqn:Hst; [|done..].
  destruct e as [env|j env| |]; simpl.
  - by destruct (producer_step env (world S) (producer S)).
  - destruct (workers S !! j) as [wj|] eqn:Hj; [|done].
    destruct (worker_step opts gen env (world S) wj) as [W' w'] eqn:Hstep.
    simpl. destruct (decide (i = j)) as [->|Hne].
    + rewrite Hj in Hi. simpl in Hi. injection Hi as Hpc.
      unfold worker_step in Hstep. rewrite Hst, Hpc in Hstep.
      injection Hstep as <- <-.
      rewrite list_lookup_insert_eq by (by eapply lookup_lt_Some).
      simpl. by rewrite Hpc.
    + by rewrite list_lookup_insert_ne.
  - by destruct (reporter_step (world S) (prevCounter S)).
  - done.
Qed.

Lemma returned_worker_forever opts gen i es : ∀ S,
  pc <$> workers S !! i = Some WorkerReturned →
  pc <$> workers (run opts gen S es) !! i = Some WorkerReturned.
Proof.
  induction es as [|e es IH]; intros S Hi; [done|].
  unfold run in *. simpl. apply IH. by apply returned_worker_stays.
Qed.

(** The world that the loop body starts from: the queue without the
    snapshot that the [select] received, if it received one. *)
Lemma worker_iteration opts gen S i env w held :
  status (world S) = Running →
  workers S !! i = Some w →
  pc w = Looping held →
  worker_select env (world S) ≠ SelDone →
  ∃ W0, store W0 = store (world S) ∧ status W0 = Running ∧
        counter W0 = counter (world S) ∧ trace W0 = trace (world S) ∧
    sys_step opts gen S (EvWorker i env) =
    {| world := (worker_body opts gen env
                   (iterationState env (world S) held) W0 w).1;
       producer := producer S;
       workers := <[i := (worker_body opts gen env
                            (iterationState env (world S) held) W0 w).2]>
                    (workers S);
       prevCounter := prevCounter S |}.
Proof.
  intros Hst Hi Hpc Hsel. unfold sys_step. rewrite Hst, Hi.
  unfold worker_step, iterationState. rewrite Hst, Hpc.
  destruct (worker_select env (world S)) as [s' rest| |]; [|done|].
  - exists (set_stateChannel rest (world S)). repeat split; [done|].
    by destruct (worker_body _ _ _ _ _ _).
  - exists (world S). repeat split; [done|].
    by destruct (worker_body _ _ _ _ _ _).
Qed.

(** C7: when the [Query] of an iteration returns [io.EOF], the worker
    returns without dispatching, the process keeps running, and from then on
    the worker stays returned and scheduling it changes nothing; when
    [Query] returns any other error, the process exits with code 2 and
    nothing happens afterwards. *)
Theorem worker_EOF_returns_other_error_exits opts gen S i env w held e b σ :
  status (world S) = Running →
  workers S !! i = Some w →
  pc w = Looping held →
  worker_select env (world S) ≠ SelDone →
  Query gen (buf w) (iterationState env (world S) held) (store (world S))
    = (Done (Some e), b, σ) →
  let S' := sys_step opts gen S (EvWorker i env) in
  (e = io_EOF →
     status (world S') = Running ∧
     counter (world S') = counter (world S) ∧
     trace (world S') = trace (world S) ++ [Println "query gen EOF"] ∧
     (∀ es, pc <$> workers (run opts gen S' es) !! i = Some WorkerReturned) ∧
     (∀ es env', run opts gen S' (es ++ [EvWorker i env'])
                 = run opts gen S' es)) ∧
  (e ≠ io_EOF →
     status (world S') = Exited 2 ∧
     counter (world S') = counter (world S) ∧
     (∀ es, run opts gen S' es = S')).
Proof.
  intros Hst Hi Hpc Hsel HQ S'.
  assert (Hlen : (i < length (workers S))%nat) by (by eapply lookup_lt_Some).
  destruct (worker_iteration opts gen S i env w held Hst Hi Hpc Hsel)
    as (W0 & Hσ & Hst0 & Hc0 & Htr0 & Hstep).
  subst S'. rewrite Hstep. clear Hstep.
  unfold worker_body. rewrite Hσ, HQ. split.
  - intros ->. rewrite decide_True by done. simpl.
    split; [done|]. split; [done|]. split; [by rewrite Htr0|].
    set (S1 := {| world := _ |}).
    assert (Hret : pc <$> workers S1 !! i = Some WorkerReturned).
    { subst S1. simpl. by rewrite list_lookup_insert_eq. }
    split.
    + intros es. by apply returned_worker_forever.
    + intros es env'. rewrite run_snoc.
      pose proof (returned_worker_forever opts gen i es S1 Hret) as Hes.
      destruct (workers (run opts gen S1 es) !! i) as [w'|] eqn:Hw'; [|done].
      simpl in Hes. injection Hes as Hes.
      by eapply returned_worker_idle.
  - intros Hne. rewrite decide_False by done. simpl.
    split; [done|]. split; [done|].
    intros es. by apply run_not_running.
Qed.


Lemma worker_body_endpoint o1 o2 gen env state W w :
  Web3Endpoint o1 = Web3Endpoint o2 →
  worker_body o1 gen env state W w = worker_body o2 gen env state W w.
Proof. intros H. unfold worker_body. by rewrite H. Qed.

Lemma sys_step_endpoint o1 o2 gen S e :
  Web3Endpoint o1 = Web3Endpoint o2 →
  sys_step o1 gen S e = sys_step o2 gen S e.
Proof.
  intros H. unfold sys_step, worker_step.
  destruct (status (world S)); [|done..].
  destruct e as [env|j env| |]; [done| |done|done].
  destruct (workers S !! j) as [wj|]; [|done].
  destruct (pc wj); [done| |done].
  destruct (worker_select env (world S)) as [s' rest| |]; [|done|].
  - by rewrite (worker_body_endpoint o1 o2).
  - by rewrite (worker_body_endpoint o1 o2).
Qed.

(** C9: two runs of the process that differ only in the [RateLimit] option
    go through the same states under the same schedule and the same answers
    of the surroundings; in particular they leave the same trace of generated
    and dispatched requests. *)
Theorem RateLimit_not_applied o1 o2 gen S es :
  Methods o1 = Methods o2 →
  Web3Endpoint o1 = Web3Endpoint o2 →
  Version o1 = Version o2 →
  run o1 gen S es = run o2 gen S es.
Proof.
  intros _ Hep _. revert S. unfold run.
  induction es as [|e es IH]; intros S; [done|].
  simpl. rewrite (sys_step_endpoint o1 o2) by done. apply IH.
Qed.

End ProcessFacts.

(** ** Evaluations on the concrete instance *)

(** C1: a send that fails without a response (the usual transport failure)
    makes [query] panic on [resp.StatusCode] before anything is logged; in
    the worker loop the panic is not recovered, so the process crashes. *)
Theorem query_failed_send_crashes_process :
  (∀ (State Store : Type) endpoint queryBuf e (W : World State Store),
     query endpoint queryBuf (None, Some e) W
     = (Panicked NilDereference,
        emit (HttpPost endpoint "application/json" queryBuf) W)) ∧
  world (sys_step (Demo.opts 0) (Demo.registry [Demo.entry "eth_call" 1 Demo.genOk])
           (Demo.oneWorker [0])
           (EvWorker 0 {| prefer_recv := true; post := Demo.postRefused |}))
  = {| status := Crashed NilDereference; stateChannel := []; ctxDone := false;
       counter := 0; store := [];
       trace := [HttpPost "http://localhost:8545" "application/json"
                   [Byte.x7b]] |}.
Proof. split; [done|]. vm_compute. reflexivity. Qed.

(** C5: on a send that fails without a response [query] panics before the
    increment, so that dispatch attempt leaves the counter as it was. *)
Theorem query_failed_send_skips_counter :
  (∀ (State Store : Type) endpoint queryBuf e (W : World State Store),
     counter (query endpoint queryBuf (None, Some e) W).2 = counter W) ∧
  counter (world (sys_step (Demo.opts 0)
                    (Demo.registry [Demo.entry "eth_call" 1 Demo.genOk])
                    (Demo.oneWorker [0])
                    (EvWorker 0 {| prefer_recv := true;
                                   post := Demo.postRefused |}))) = 0.
Proof. split; [done|]. vm_compute. reflexivity. Qed.

(** C3: the first two [Add] calls of the scenario with weights 100 and 300
    leave the heavier entry in front: the slice is sorted by descending
    weight, not ascending. *)
Theorem Add_keeps_heaviest_first :
  AddAll emptyGenerator [Demo.queryA]
  = Done {| queries := [Demo.queryA]; totalWeight := 100 |} ∧
  AddAll emptyGenerator [Demo.queryA; Demo.queryB]
  = Done {| queries := [Demo.queryB; Demo.queryA]; totalWeight := 400 |} ∧
  ¬ Sorted lighterFirst [Demo.queryB; Demo.queryA].
Proof.
  split; [reflexivity|]. split; [reflexivity|].
  intros Hs. apply Sorted_inv in Hs as [_ Hhd].
  apply HdRel_inv in Hhd. unfold lighterFirst in Hhd. simpl in Hhd. lia.
Qed.

(** C2: in the registry built from A (100) and B (300), 301 of the 400
    draws stop at B and 99 at A; with two entries of weight 1 both draws stop
    at the first entry and [Query] writes its request for the draw 0 and for
    the draw 1. *)
Theorem Query_selection_off_by_one :
  AddAll emptyGenerator [Demo.queryA; Demo.queryB]
  = Done (Demo.registry [Demo.queryB; Demo.queryA]) ∧
  drawsSelecting (Demo.registry [Demo.queryB; Demo.queryA]) 0 = 301%nat ∧
  drawsSelecting (Demo.registry [Demo.queryB; Demo.queryA]) 1 = 99%nat ∧
  AddAll emptyGenerator [Demo.queryP; Demo.queryQ]
  = Done (Demo.registry [Demo.queryP; Demo.queryQ]) ∧
  drawsSelecting (Demo.registry [Demo.queryP; Demo.queryQ]) 0 = 2%nat ∧
  drawsSelecting (Demo.registry [Demo.queryP; Demo.queryQ]) 1 = 0%nat ∧
  Query (Demo.registry [Demo.queryP; Demo.queryQ]) [] () [0]
  = (Done None, [Byte.x50], []) ∧
  Query (Demo.registry [Demo.queryP; Demo.queryQ]) [] () [1]
  = (Done None, [Byte.x50], []).
Proof. repeat split; vm_compute; reflexivity. Qed.

(** C10, as stated, fails: an [Add] with weight 0 panics on its slice
    expression, and weights that sum past the largest int64 leave a wrapped
    total. *)
Lemma Add_zero_weight_or_overflow_unfaithful :
  ¬ registryFaithful [Demo.entry "eth_call" 0 Demo.genOk] ∧
  ¬ registryFaithful [Demo.entry "a" Int64.max_int Demo.genOk;
                      Demo.entry "b" 1 Demo.genOk].
Proof.
  split; intros (g & Hg & Hperm & Htot).
  - vm_compute in Hg. discriminate.
  - vm_compute in Hg. injection Hg as <-. vm_compute in Htot. discriminate.
Qed.

(** A generator error other than [io.EOF] ends the process with code 2. *)
Example worker_generator_error_exits :
  status (world (sys_step (Demo.opts 0)
                   (Demo.registry [Demo.entry "eth_call" 1 Demo.genFail])
                   (Demo.oneWorker [5])
                   (EvWorker 0 {| prefer_recv := true;
                                  post := Demo.postOk |})))
  = Exited 2.
Proof. vm_compute. reflexivity. Qed.

(** A successful dispatch posts the generated bytes, counts one request and
    leaves the worker at the head of its loop with an empty buffer. *)
Example worker_dispatch_counts_once :
  sys_step (Demo.opts 0) (Demo.registry [Demo.queryB; Demo.queryA])
    (Demo.oneWorker [350])
    (EvWorker 0 {| prefer_recv := true; post := Demo.postOk |})
  = {| world := {| status := Running; stateChannel := []; ctxDone := false;
                   counter := 1; store := [];
                   trace := [HttpPost "http://localhost:8545"
                               "application/json" [Byte.x41]] |};
       producer := Interval;
       workers := [ {| pc := Looping (); buf := [] |} ];
       prevCounter := 0 |}.
Proof. vm_compute. reflexivity. Qed.

(** *** Instances of the theorems with hypotheses *)

Lemma Query_empty_registry_no_effect_witness :
  Query emptyGenerator [Byte.x5b] () [7; 8]
  = (Done (Some (errors_New "no query generators available")),
     [Byte.x5b], [7; 8]).
Proof.
  apply (Query_empty_registry_no_effect emptyGenerator [Byte.x5b] () [7; 8]).
  reflexivity.
Defined.

Lemma Query_walk_reaches_generator_witness :
  ∃ weight k q,
    Int64.rem 1234 400 = Some weight ∧
    0 ≤ weight < 400 ∧
    walk [Demo.queryB; Demo.queryA] 0 weight 0%nat = Some (k, q) ∧
    q ∈ [Demo.queryB; Demo.queryA] ∧
    Query (Demo.registry [Demo.queryB; Demo.queryA]) [] () [1234]
    = call (Generate q) [] () [].
Proof.
  exact (Query_walk_reaches_generator
           (Demo.registry [Demo.queryB; Demo.queryA]) [] () [1234]
           ltac:(discriminate) ltac:(repeat constructor) ltac:(reflexivity)
           ltac:(split; discriminate) ltac:(discriminate)).
Defined.

Lemma AddAll_positive_faithful_witness :
  registryFaithful [Demo.queryA; Demo.queryB].
Proof.
  apply (AddAll_positive_faithful [Demo.queryA; Demo.queryB]).
  - repeat constructor.
  - discriminate.
Defined.

Lemma RateLimit_not_applied_witness :
  run (Demo.opts 0) (Demo.registry [Demo.queryB; Demo.queryA])
    (Demo.oneWorker [250; 350])
    [EvWorker 0 {| prefer_recv := true; post := Demo.postOk |}; EvReporter;
     EvWorker 0 {| prefer_recv := true; post := Demo.postOk |}]
  = run (Demo.opts 1000) (Demo.registry [Demo.queryB; Demo.queryA])
      (Demo.oneWorker [250; 350])
      [EvWorker 0 {| prefer_recv := true; post := Demo.postOk |}; EvReporter;
       EvWorker 0 {| prefer_recv := true; post := Demo.postOk |}].
Proof.
  apply (RateLimit_not_applied (Demo.opts 0) (Demo.opts 1000)); reflexivity.
Defined.

Lemma worker_EOF_returns_other_error_exits_witness :
  let gen := Demo.registry [Demo.entry "eth_call" 1 Demo.genEOF] in
  let S' := sys_step (Demo.opts 0) gen (Demo.oneWorker [5])
              (EvWorker 0 {| prefer_recv := true; post := Demo.postOk |}) in
  (io_EOF = io_EOF →
     status (world S') = Running ∧
     counter (world S') = 0 ∧
     trace (world S') = [] ++ [Println "query gen EOF"] ∧
     (∀ es, pc <$> workers (run (Demo.opts 0) gen S' es) !! 0%nat
            = Some WorkerReturned) ∧
     (∀ es env', run (Demo.opts 0) gen S' (es ++ [EvWorker 0 env'])
                 = run (Demo.opts 0) gen S' es)) ∧
  (io_EOF ≠ io_EOF →
     status (world S') = Exited 2 ∧
     counter (world S') = 0 ∧
     (∀ es, run (Demo.opts 0) gen S' es = S')).
Proof.
  apply (worker_EOF_returns_other_error_exits (Demo.opts 0)
           (Demo.registry [Demo.entry "eth_call" 1 Demo.genEOF])
           (Demo.oneWorker [5]) 0
           {| prefer_recv := true; post := Demo.postOk |}
           {| pc := Looping (); buf := [] |} () io_EOF [] []).
  - reflexivity.
  - reflexivity.
  - reflexivity.
  - discriminate.
  - reflexivity.
Defined.

(** * Further properties of the code *)

(** ** The registry *)

Section MoreRegistryFacts.
Context {State Store : Type} `{!StateAPI State Store}.
Implicit Types (q : RandomQuery State Store) (qs : list (RandomQuery State Store)).
Implicit Types (g : generator State Store).

Lemma insertByWeight_split q qs r :
  Forall (λ x, Weight q ≤ Weight x) (take r qs) →
  Forall (λ x, Weight x < Weight q) (drop r qs) →
  insertByWeight q qs = take r qs ++ q :: drop r qs.
Proof.
  revert r. induction qs as [|x rest IH]; intros r Hlo Hhi.
  - by destruct r.
  - destruct r as [|r]; simpl in *.
    + apply Forall_cons in Hhi as [Hx _].
      destruct (Z.ltb_spec (Weight x) (Weight q)); [done | lia].
    + apply Forall_cons in Hlo as [Hx Hlo].
      destruct (Z.ltb_spec (Weight x) (Weight q)); [lia|].
      f_equal. by apply IH.
Qed.

Lemma insertByWeight_sorted q qs :
  StronglySorted heavierFirst qs →
  StronglySorted heavierFirst (insertByWeight q qs).
Proof.
  induction 1 as [|x rest Hs IH Hall]; simpl.
  - repeat constructor.
  - destruct (Z.ltb_spec (Weight x) (Weight q)) as [Hlt|Hge].
    + constructor; [by constructor|]. constructor.
      * unfold heavierFirst. lia.
      * eapply Forall_impl; [exact Hall|]. unfold heavierFirst.
        intros y Hy. simpl in Hy. lia.
    + constructor; [done|].
      assert (Hin : ∀ y, y ∈ insertByWeight q rest → y = q ∨ y ∈ rest).
      { clear. induction rest as [|z rest IH]; simpl; intros y Hy.
        - apply list_elem_of_singleton in Hy. by left.
        - destruct (Weight z <? Weight q).
          + apply elem_of_cons in Hy as [->|Hy]; [by left | by right].
          + apply elem_of_cons in Hy as [->|Hy].
            * right. by left.
            * destruct (IH y Hy) as [->|Hr]; [by left|]. right. by right. }
      apply Forall_forall. intros y Hy.
      destruct (Hin y Hy) as [->|Hr].
      * unfold heavierFirst. lia.
      * rewrite Forall_forall in Hall. by apply Hall.
Qed.

(** X1. On a slice kept heaviest first, [Add] of an entry of positive weight
    is the insertion by a linear scan: the binary search, the shift and the
    store put the entry in front of the first strictly lighter entry, after
    the entries of equal weight. *)
Theorem Add_is_linear_insertion g q :
  StronglySorted heavierFirst (queries g) → 0 < Weight q →
  Add g q = Done {| queries := insertByWeight q (queries g);
                    totalWeight := Int64.add (totalWeight g) (Weight q) |}.
Proof.
  intros Hs Hpos.
  destruct (Add_inserts g q Hs Hpos) as (r & _ & HAdd & Hlo & Hhi).
  rewrite HAdd. by rewrite (insertByWeight_split q (queries g) r).
Qed.

Lemma AddAll_insertion qs : ∀ g t,
  StronglySorted heavierFirst (queries g) →
  totalWeight g = Int64.wrap t →
  Forall (λ q, 0 < Weight q) qs →
  AddAll g qs
  = Done {| queries := foldl (λ acc q, insertByWeight q acc) (queries g) qs;
            totalWeight := Int64.wrap (t + sumWeights qs) |}.
Proof.
  induction qs as [|q qs IH]; intros g t Hs Ht Hpos.
  - simpl. rewrite Z.add_0_r, <- Ht. by destruct g.
  - apply Forall_cons in Hpos as [Hq Hpos].
    destruct (Add_inserts g q Hs Hq) as (r & _ & HAdd & Hlo & Hhi).
    rewrite AddAll_cons, HAdd. simpl.
    rewrite <- (insertByWeight_split q (queries g) r) by done.
    rewrite (IH _ (t + Weight q)); simpl.
    + f_equal. f_equal. f_equal. lia.
    + by apply insertByWeight_sorted.
    + unfold Int64.add. rewrite Ht. apply wrap_add_wrap.
    + done.
Qed.

(** X2. A sequence of [Add] calls with positive weights on a fresh registry
    computes the stable insertion sort of the entries by descending weight,
    and [totalWeight] is the sum of the weights reduced to 64 bits. *)
Theorem AddAll_is_insertion_sort qs :
  Forall (λ q, 0 < Weight q) qs →
  AddAll emptyGenerator qs
  = Done {| queries := foldl (λ acc q, insertByWeight q acc) [] qs;
            totalWeight := Int64.wrap (sumWeights qs) |}.
Proof.
  intros Hpos.
  rewrite (AddAll_insertion qs emptyGenerator 0); [done | constructor | done | done].
Qed.

(** X3. After any sequence of [Add] calls with positive weights the slice is
    sorted by descending weight: every entry is at least as heavy as all the
    entries behind it. *)
Theorem AddAll_keeps_descending_order qs :
  Forall (λ q, 0 < Weight q) qs →
  ∃ g, AddAll emptyGenerator qs = Done g ∧
       ∀ i j x y, (i < j)%nat → queries g !! i = Some x →
                  queries g !! j = Some y → Weight y ≤ Weight x.
Proof.
  intros Hpos.
  destruct (AddAll_positive qs emptyGenerator 0) as (g & Hg & Hs & _);
    [constructor | done | done |].
  exists g. split; [done|]. intros i j x y Hij Hi Hj.
  exact (StronglySorted_lookup_lt heavierFirst (queries g) i j x y Hs Hij Hi Hj).
Qed.

Lemma search_all_false (f : nat → exec bool) (n : nat) :
  (∀ k, (k < n)%nat → f k = Done false) →
  Sort.Search n f = Done n.
Proof.
  intros Hf. unfold Sort.Search.
  destruct (search_loop_spec f (λ _, false) 0 n) as (r & Hr & Hb & Hlo & Hhi).
  - lia.
  - intros k Hk. apply Hf. lia.
  - done.
  - destruct (decide (r = n)) as [->|Hne]; [done|].
    specialize (Hhi r ltac:(lia)). done.
Qed.

Lemma Add_not_lighter_panics g q :
  Weight q ≤ 0 →
  Forall (λ x, Weight q ≤ Weight x) (queries g) →
  Add g q = Panicked (SliceBoundsOutOfRange (length (queries g) + 2)
                        (length (queries g) + 1)).
Proof.
  intros Hq Hall. unfold Add.
  set (qs := queries g) in *.
  assert (Hqs' : match qs with [] => [zeroQuery] | _ :: _ => qs ++ [zeroQuery] end
                 = qs ++ [zeroQuery]) by (by destruct qs).
  rewrite Hqs'. clear Hqs'.
  set (qs' := qs ++ [zeroQuery]).
  assert (Hlen : length qs' = (length qs + 1)%nat).
  { subst qs'. by rewrite length_app. }
  rewrite search_all_false.
  - simpl. unfold Slice.copy_within, Slice.from.
    rewrite Hlen.
    destruct (decide (length qs + 1 + 1 ≤ length qs + 1)%nat) as [Hbad|_];
      [lia|].
    simpl. do 2 f_equal. lia.
  - intros k Hk. unfold lessThan, Slice.index.
    destruct (lookup_lt_is_Some_2 qs' k Hk) as [x Hx]. rewrite Hx. simpl.
    f_equal. apply Z.ltb_ge.
    subst qs'. apply lookup_app_Some in Hx as [Hx|[_ Hx]].
    + rewrite Forall_forall in Hall. apply Hall.
      by eapply list_elem_of_lookup_2.
    + apply list_lookup_singleton_Some in Hx as [_ <-]. done.
Qed.

(** X4. [Add] of an entry whose weight is zero or negative, on a registry
    whose entries are no lighter, panics on the slice expression
    [g.queries[idx+1:]]: the search finds no lighter entry, not even the
    placeholder, and returns the length. *)
Theorem Add_nonpositive_weight_panics g q :
  Weight q ≤ 0 →
  Forall (λ x, Weight q ≤ Weight x) (queries g) →
  Add g q = Panicked (SliceBoundsOutOfRange (length (queries g) + 2)
                        (length (queries g) + 1)).
Proof. apply Add_not_lighter_panics. Qed.

Lemma AddAll_panicked_absorbs (p : panic) qs :
  foldl (λ acc q, g' ← acc; Add g' q) (Panicked p) qs
  = (Panicked p : exec (generator State Store)).
Proof. induction qs as [|q qs IH]; simpl; done. Qed.

(** X5. A sequence of [Add] calls on a fresh registry runs to completion
    exactly when every weight is positive. *)
Theorem AddAll_completes_iff_positive qs :
  (∃ g, AddAll emptyGenerator qs = Done g) ↔ Forall (λ q, 0 < Weight q) qs.
Proof.
  split.
  - assert (Hgen : ∀ g, StronglySorted heavierFirst (queries g) →
             Forall (λ x, 0 < Weight x) (queries g) →
             (∃ g', AddAll g qs = Done g') → Forall (λ q, 0 < Weight q) qs).
    { induction qs as [|q qs IH]; intros g Hs Hg [g' Hg']; [constructor|].
      rewrite AddAll_cons in Hg'.
      destruct (decide (0 < Weight q)) as [Hq|Hq].
      - constructor; [done|].
        destruct (Add_inserts g q Hs Hq) as (r & _ & HAdd & Hlo & Hhi).
        rewrite HAdd in Hg'. simpl in Hg'.
        apply (IH {| queries := take r (queries g) ++ q :: drop r (queries g);
                     totalWeight := Int64.add (totalWeight g) (Weight q) |}).
        + simpl. rewrite <- (insertByWeight_split q (queries g) r) by done.
          by apply insertByWeight_sorted.
        + simpl. apply Forall_app. split; [by apply Forall_take|].
          constructor; [done | by apply Forall_drop].
        + by exists g'.
      - rewrite Add_not_lighter_panics in Hg'; [done | lia |].
        eapply Forall_impl; [exact Hg|]. intros x Hx. simpl in Hx. lia. }
    apply (Hgen emptyGenerator); constructor.
  - intros Hpos.
    destruct (AddAll_positive qs emptyGenerator 0) as (g & Hg & _);
      [constructor | done | done |].
    by exists g.
Qed.

End MoreRegistryFacts.

(** ** Selection by [Query] *)

Lemma filter_ext_in {A} (P Q : A → Prop)
    `{!∀ x, Decision (P x), !∀ x, Decision (Q x)} (l : list A) :
  (∀ x, x ∈ l → P x ↔ Q x) → filter P l = filter Q l.
Proof.
  induction l as [|a l IH]; intros Hext; [done|].
  assert (Hl : filter P l = filter Q l).
  { apply IH. intros x Hx. apply Hext. by right. }
  destruct (decide (P a)) as [Ha|Ha].
  - rewrite !filter_cons_True; [by rewrite Hl | | done].
    apply Hext; [by left | done].
  - rewrite !filter_cons_False; [done | | done].
    intros HQ. apply Ha, Hext; [by left | done].
Qed.

Lemma filter_all {A} (P : A → Prop) `{!∀ x, Decision (P x)} (l : list A) :
  Forall P l → filter P l = l.
Proof.
  induction 1 as [|a l Ha _ IH]; [done|].
  by rewrite filter_cons_True, IH.
Qed.

Lemma filter_none {A} (P : A → Prop) `{!∀ x, Decision (P x)} (l : list A) :
  Forall (λ x, ¬ P x) l → filter P l = [].
Proof.
  induction 1 as [|a l Ha _ IH]; [done|].
  by rewrite filter_cons_False.
Qed.

(** How many of [0, ..., T-1] lie in the half-open interval [(lo, hi]]. *)
Lemma count_interval (lo hi T : Z) :
  -1 ≤ lo → lo ≤ hi → hi < T →
  length (filter (λ d, lo < d ≤ hi) (seqZ 0 T)) = Z.to_nat (hi - lo).
Proof.
  intros Hlo Hle Hhi.
  replace T with ((lo + 1) + ((hi - lo) + (T - 1 - hi))) by lia.
  rewrite (seqZ_app 0 (lo + 1)) by lia.
  rewrite (seqZ_app (0 + (lo + 1)) (hi - lo)) by lia.
  rewrite !filter_app, !length_app.
  rewrite (filter_none _ (seqZ 0 (lo + 1)))
    by (apply Forall_seqZ; intros; lia).
  rewrite (filter_all _ (seqZ (0 + (lo + 1)) (hi - lo)))
    by (apply Forall_seqZ; intros; lia).
  rewrite (filter_none _ (seqZ _ (T - 1 - hi)))
    by (apply Forall_seqZ; intros; lia).
  rewrite length_seqZ. simpl. lia.
Qed.

Section SelectionFacts.
Context {State Store : Type} `{!StateAPI State Store}.
Implicit Types (q : RandomQuery State Store) (qs : list (RandomQuery State Store)).
Implicit Types (g : generator State Store).

Lemma cumWeight_S qs k q :
  qs !! k = Some q → cumWeight qs (S k) = cumWeight qs k + Weight q.
Proof.
  intros Hk. unfold cumWeight. rewrite (take_S_r _ _ _ Hk).
  induction (take k qs) as [|x l IH]; simpl; lia.
Qed.

Lemma cumWeight_le_total qs k :
  Forall (λ q, 0 < Weight q) qs → cumWeight qs k ≤ sumWeights qs.
Proof.
  intros Hpos. unfold cumWeight.
  rewrite <- (take_drop k qs) at 2.
  assert (Happ : ∀ l1 l2 : list (RandomQuery State Store),
            sumWeights (l1 ++ l2) = sumWeights l1 + sumWeights l2).
  { intros l1 l2. induction l1 as [|x l1 IH]; simpl; lia. }
  rewrite Happ.
  pose proof (sumWeights_nonneg (drop k qs) (Forall_drop _ _ _ Hpos)). lia.
Qed.

Lemma cumWeight_length qs : cumWeight qs (length qs) = sumWeights qs.
Proof. unfold cumWeight. by rewrite firstn_all. Qed.

Lemma selectedIndex_first_cover g d k :
  Forall (λ q, 0 < Weight q) (queries g) →
  sumWeights (queries g) ≤ Int64.max_int →
  selectedIndex g d = Some k ↔
    (k < length (queries g))%nat ∧
    d ≤ cumWeight (queries g) (S k) ∧
    (k = 0%nat ∨ cumWeight (queries g) k < d).
Proof.
  intros Hpos Hmax. unfold selectedIndex, cumWeight. split.
  - destruct (walk (queries g) 0 d 0) as [[k' q]|] eqn:Hw; [|done].
    intros [= <-].
    apply (walk_first_cover (queries g) 0 d 0%nat k' q Hpos) in Hw
      as (j & -> & Hj & Hd & Hfirst); [|done | lia].
    simpl. split; [by eapply lookup_lt_Some|]. split; [lia|].
    destruct Hfirst as [->|Hf]; [by left | right; lia].
  - intros (Hk & Hd & Hfirst).
    destruct (lookup_lt_is_Some_2 (queries g) k Hk) as [q Hq].
    assert (Hw : walk (queries g) 0 d 0 = Some (k, q)).
    { apply (walk_first_cover (queries g) 0 d 0%nat k q Hpos); [done | lia |].
      exists k. split; [done|]. split; [done|]. split; [lia|].
      destruct Hfirst as [->|Hf]; [by left | right; lia]. }
    by rewrite Hw.
Qed.

(** X6. With positive weights whose sum fits in an int64, the loop of
    [Query] stops for the draw [d] at position [k] exactly when [k] is the
    first position whose cumulative weight is at least [d]: the draw is at
    most the total through [k] and, unless [k] is the first position, above
    the total before [k]. *)
Theorem Query_stops_at_first_cover g d k :
  Forall (λ q, 0 < Weight q) (queries g) →
  sumWeights (queries g) ≤ Int64.max_int →
  selectedIndex g d = Some k ↔
    (k < length (queries g))%nat ∧
    d ≤ cumWeight (queries g) (S k) ∧
    (k = 0%nat ∨ cumWeight (queries g) k < d).
Proof. apply selectedIndex_first_cover. Qed.

(** X7. With positive weights summing to [totalWeight] (an int64), the
    number of draws in [0, totalWeight) that stop at an entry is its weight,
    plus one for the first of several entries and minus one for the last of
    several: the comparison [current >= weight] moves one draw from the last
    entry to the first. *)
Theorem drawsSelecting_count g k q :
  Forall (λ q, 0 < Weight q) (queries g) →
  totalWeight g = sumWeights (queries g) →
  totalWeight g ≤ Int64.max_int →
  queries g !! k = Some q →
  Z.of_nat (drawsSelecting g k)
  = Weight q + selectionBias (length (queries g)) k.
Proof.
  intros Hpos Htot Hmax Hk.
  assert (Hmax' : sumWeights (queries g) ≤ Int64.max_int) by (by rewrite <- Htot).
  pose proof (selectedIndex_first_cover g) as Hrule.
  set (qs := queries g) in *. set (T := totalWeight g) in *.
  pose proof (lookup_lt_Some _ _ _ Hk) as Hlen.
  pose proof (cumWeight_S qs k q Hk) as HS.
  pose proof (cumWeight_le_total qs (S k) Hpos) as HSle.
  assert (Hq : 0 < Weight q).
  { rewrite Forall_forall in Hpos. apply Hpos.
    by eapply list_elem_of_lookup_2. }
  assert (Hck : 0 ≤ cumWeight qs k).
  { unfold cumWeight. apply sumWeights_nonneg. by apply Forall_take. }
  assert (Hlast : S k = length qs → cumWeight qs (S k) = T).
  { intros ->. rewrite cumWeight_length. by rewrite Htot. }
  assert (Hmid : S k ≠ length qs → cumWeight qs (S k) < T).
  { intros Hne.
    destruct (lookup_lt_is_Some_2 qs (S k) ltac:(lia)) as [q' Hq'].
    pose proof (cumWeight_S qs (S k) q' Hq') as HS'.
    pose proof (cumWeight_le_total qs (S (S k)) Hpos) as HSle'.
    assert (0 < Weight q').
    { rewrite Forall_forall in Hpos. apply Hpos.
      by eapply list_elem_of_lookup_2. }
    rewrite Htot. lia. }
  set (lo := if decide (k = 0%nat) then -1 else cumWeight qs k).
  set (hi := cumWeight qs (S k) `min` (T - 1)).
  unfold drawsSelecting. fold T.
  rewrite (filter_ext_in _ (λ d, lo < d ≤ hi)).
  - rewrite count_interval.
    + rewrite Z2Nat.id.
      * subst lo hi. unfold selectionBias.
        assert (Hc0 : cumWeight qs 0 = 0) by done.
        repeat case_decide; subst; try lia.
        all: try (rewrite Hlast in * by lia; lia).
        all: try (specialize (Hmid ltac:(lia)); lia).
        all: rewrite Hlast in * by lia; rewrite Htot in *; lia.
      * subst lo hi. case_decide; subst; lia.
    + subst lo. case_decide; lia.
    + subst lo hi. rewrite Htot in *. case_decide; subst; lia.
    + subst hi. lia.
  - intros d Hd. apply elem_of_seqZ in Hd.
    rewrite (Hrule d k Hpos Hmax').
    subst lo hi. split.
    + intros (_ & Hle & Hfirst). case_decide; [lia|].
      destruct Hfirst; [done | lia].
    + intros [Hlo Hhi]. split; [done|]. split; [lia|].
      case_decide; [by left | right; lia].
Qed.

(** X8. On a non-empty registry of positive weights whose [totalWeight] is
    their sum, [Query] calls the generator of some entry for every value of
    the random source, negative ones included: the remainder then is at most
    zero and the loop stops at the first entry. *)
Theorem Query_reaches_generator_for_any_value g (w : Buffer) (s : State)
    (σ : Store) :
  queries g ≠ [] →
  Forall (λ q, 0 < Weight q) (queries g) →
  totalWeight g = sumWeights (queries g) →
  Int64.in_range (totalWeight g) →
  ∃ weight k q,
    Int64.rem (RandInt64 s σ).1 (totalWeight g) = Some weight ∧
    - totalWeight g < weight < totalWeight g ∧
    walk (queries g) 0 weight 0%nat = Some (k, q) ∧
    queries g !! k = Some q ∧
    ((RandInt64 s σ).1 ≤ 0 → k = 0%nat) ∧
    Query g w s σ = call (Generate q) w s (RandInt64 s σ).2.
Proof.
  intros Hne Hpos Htot Hrange.
  assert (HT : 0 < totalWeight g).
  { rewrite Htot. destruct (queries g) as [|q0 rest]; [done|].
    apply Forall_cons in Hpos as [Hq0 Hpos].
    pose proof (sumWeights_nonneg rest Hpos). simpl. lia. }
  destruct (RandInt64 s σ) as [r σ'] eqn:Hrand. simpl.
  set (weight := Z.rem r (totalWeight g)).
  assert (Hb : - totalWeight g < weight < totalWeight g).
  { pose proof (Z.rem_bound_abs r (totalWeight g) ltac:(lia)). subst weight. lia. }
  assert (Hwrap : Int64.rem r (totalWeight g) = Some weight).
  { unfold Int64.rem. rewrite decide_False by lia. f_equal.
    apply wrap_in_range.
    unfold Int64.in_range, Int64.min_int, Int64.max_int in *. lia. }
  destruct (walk_covers (queries g) 0 weight 0%nat Hpos Hne)
    as (k & q & Hwalk & _).
  { done. }
  { rewrite <- Htot. unfold Int64.in_range in Hrange. lia. }
  { lia. }
  pose proof Hwalk as Hspec.
  apply (walk_first_cover (queries g) 0 weight 0%nat k q Hpos) in Hspec
    as (j & -> & Hj & Hd & Hfirst);
    [| done | rewrite <- Htot; unfold Int64.in_range in Hrange; lia].
  exists weight, j, q. split; [done|]. split; [done|]. split; [done|].
  split; [done|]. split.
  - intros Hr. destruct Hfirst as [->|Hf]; [done|].
    pose proof (Z.rem_bound_pos_neg r (totalWeight g) HT Hr) as Hneg.
    fold weight in Hneg.
    pose proof (sumWeights_nonneg (take j (queries g))
                  (Forall_take _ _ _ Hpos)). lia.
  - unfold Query. rewrite decide_False by (by destruct (queries g)).
    rewrite Hrand, Hwrap, Hwalk. done.
Qed.

(** X9. When positive weights add up to a multiple of 2^64, the sequence of
    [Add] calls completes with [totalWeight] wrapped to zero, and from then on
    every [Query] draws a random value and panics on the division by zero. *)
Theorem Query_divides_by_wrapped_total qs :
  qs ≠ [] →
  Forall (λ q, 0 < Weight q) qs →
  Int64.wrap (sumWeights qs) = 0 →
  ∃ g, AddAll emptyGenerator qs = Done g ∧
       ∀ (w : Buffer) (s : State) (σ : Store),
         Query g w s σ = (Panicked IntegerDivideByZero, w, (RandInt64 s σ).2).
Proof.
  intros Hne Hpos Hsum.
  destruct (AddAll_positive qs emptyGenerator 0) as (g & Hg & _ & Hperm & Htot);
    [constructor | done | done |].
  exists g. split; [done|]. intros w s σ.
  simpl in Hperm. rewrite Z.add_0_l, Hsum in Htot.
  unfold Query. rewrite decide_False.
  - destruct (RandInt64 s σ) as [r σ']. rewrite Htot. done.
  - rewrite (Permutation_length Hperm). by destruct qs.
Qed.

(** X20. A registry filled by [Add] calls with positive weights whose sum
    fits in an int64 always serves [Query]: whatever the random source
    returns, [Query] calls the generator of one of the added entries, after
    drawing exactly one random value. *)
Theorem Query_after_AddAll_calls_an_added_generator qs :
  qs ≠ [] →
  Forall (λ q, 0 < Weight q) qs →
  sumWeights qs ≤ Int64.max_int →
  ∃ g, AddAll emptyGenerator qs = Done g ∧
       ∀ (w : Buffer) (s : State) (σ : Store),
         ∃ q, q ∈ qs ∧
              Query g w s σ = call (Generate q) w s (RandInt64 s σ).2.
Proof.
  intros Hne Hpos Hmax.
  destruct (AddAll_positive qs emptyGenerator 0) as (g & Hg & _ & Hperm & Htot);
    [constructor | done | done |].
  simpl in Hperm. rewrite Z.add_0_l in Htot.
  pose proof (sumWeights_nonneg qs Hpos) as Hnn.
  assert (Hsum : sumWeights (queries g) = sumWeights qs)
    by (by apply sumWeights_perm).
  rewrite wrap_in_range in Htot
    by (unfold Int64.in_range, Int64.min_int, Int64.max_int in *; lia).
  assert (Hposg : Forall (λ q, 0 < Weight q) (queries g)) by (by rewrite Hperm).
  assert (Hneg : queries g ≠ []).
  { intros Hnil. rewrite Hnil in Hperm. symmetry in Hperm.
    by apply Permutation_nil_r in Hperm. }
  assert (HT : 0 < totalWeight g).
  { rewrite Htot. destruct qs as [|q0 rest]; [done|].
    apply Forall_cons in Hpos as [Hq0 Hpos].
    pose proof (sumWeights_nonneg rest Hpos). simpl. lia. }
  exists g. split; [done|]. intros w s σ.
  destruct (RandInt64 s σ) as [r σ'] eqn:Hrand. simpl.
  set (weight := Z.rem r (totalWeight g)).
  assert (Hb : - totalWeight g < weight < totalWeight g).
  { pose proof (Z.rem_bound_abs r (totalWeight g) ltac:(lia)). subst weight. lia. }
  assert (Hwrap : Int64.rem r (totalWeight g) = Some weight).
  { unfold Int64.rem. rewrite decide_False by lia. f_equal.
    apply wrap_in_range.
    unfold Int64.in_range, Int64.min_int, Int64.max_int in *. lia. }
  destruct (walk_covers (queries g) 0 weight 0%nat Hposg Hneg)
    as (k & q & Hwalk & Hin); [done | lia | lia |].
  exists q. split; [by rewrite <- Hperm|].
  unfold Query. rewrite decide_False by (by destruct (queries g)).
  rewrite Hrand, Hwrap, Hwalk. done.
Qed.

(** X21. With several entries of positive weights, a last entry of weight 1
    is never selected: no draw in [0, totalWeight) stops at it. [Add] keeps
    the lightest entry last, so a method configured with weight 1 beside
    heavier ones is never generated. *)
Theorem last_entry_of_weight_one_never_selected g k q d :
  Forall (λ q, 0 < Weight q) (queries g) →
  totalWeight g = sumWeights (queries g) →
  totalWeight g ≤ Int64.max_int →
  length (queries g) = S k → (0 < k)%nat →
  queries g !! k = Some q → Weight q = 1 →
  0 ≤ d < totalWeight g →
  selectedIndex g d ≠ Some k.
Proof.
  intros Hpos Htot Hmax Hlen Hk Hq Hw Hd Hsel.
  apply (selectedIndex_first_cover g d k Hpos) in Hsel
    as (_ & Hle & Hfirst); [|by rewrite <- Htot].
  destruct Hfirst as [->|Hlt]; [lia|].
  pose proof (cumWeight_S (queries g) k q Hq) as HS.
  rewrite <- Hlen, cumWeight_length, <- Htot in HS. lia.
Qed.

End SelectionFacts.

(** ** Invariants of the running process *)

(** Splits a step of the process into the cases of the code. *)
Ltac step_cases :=
  unfold sys_step, worker_step, worker_body, worker_select, producer_step,
    reporter_step, query, deref_StatusCode, exit,
    mbind, exec_bind, mret, exec_ret in *;
  repeat case_match; simplify_eq/=.

Section RunFacts.
Context {State Store : Type} `{!StateAPI State Store}.
Implicit Types (W : World State Store) (w : Worker State) (S : System State Store).

(** A property kept by every step holds after every schedule. *)
Lemma run_invariant (I : System State Store → Prop) opts gen :
  (∀ S e, I S → I (sys_step opts gen S e)) →
  ∀ es S, I S → I (run opts gen S es).
Proof.
  intros Hstep es. induction es as [|e es IH]; intros S HS; [done|].
  unfold run in *. simpl. apply IH. by apply Hstep.
Qed.

Lemma countOutputs_snoc (f : output → bool) tr o :
  countOutputs f (tr ++ [o])
  = (countOutputs f tr + (if f o then 1 else 0))%nat.
Proof.
  unfold countOutputs. rewrite filter_app, length_app. f_equal.
  destruct (f o) eqn:Hf.
  - by rewrite filter_cons_True.
  - rewrite filter_cons_False; [done|]. by rewrite Hf.
Qed.

Lemma wrap_range z : Int64.in_range (Int64.wrap z).
Proof.
  unfold Int64.in_range, Int64.wrap, Int64.min_int, Int64.max_int.
  pose proof (Z.mod_pos_bound (z + 2 ^ 63) (2 ^ 64) ltac:(lia)). lia.
Qed.

Lemma wrap_succ_wrap z : Int64.add (Int64.wrap z) 1 = Int64.wrap (z + 1).
Proof. apply wrap_add_wrap. Qed.

(** X10. [query] completes unless the send failed without a response; when
    it completes it has handed exactly one request to the transport and
    raised the counter by one, and in the remaining case it panics with the
    counter untouched. *)
Theorem query_outcome endpoint queryBuf (post : PostResult) W :
  match post with
  | (None, Some _) =>
      query endpoint queryBuf post W
      = (Panicked NilDereference,
         emit (HttpPost endpoint "application/json" queryBuf) W)
  | _ =>
      ∃ W', query endpoint queryBuf post W = (Done (), W') ∧
            counter W' = Int64.add (counter W) 1 ∧
            countOutputs isPost (trace W')
            = S (countOutputs isPost (trace W)) ∧
            status W' = status W ∧ stateChannel W' = stateChannel W ∧
            store W' = store W
  end.
Proof.
  destruct post as [[r|] [e|]]; [| | done |];
    eexists; (split; [reflexivity|]); simpl;
    rewrite ?countOutputs_snoc; simpl; repeat split; lia.
Qed.

Lemma postsTo_step opts gen S e :
  postsTo (Web3Endpoint opts) (trace (world S)) →
  postsTo (Web3Endpoint opts) (trace (world (sys_step opts gen S e))).
Proof.
  intros HS. unfold postsTo in *. step_cases; try done.
  all: rewrite ?Forall_app; repeat split; try done.
  all: repeat constructor.
Qed.

(** X12. Every request of every run goes to the endpoint of the options,
    with the content type [application/json]. *)
Theorem requests_go_to_configured_endpoint opts gen (σ : Store) es :
  postsTo (Web3Endpoint opts)
    (trace (world (run opts gen (initSystem σ) es))).
Proof.
  apply (run_invariant (λ S, postsTo (Web3Endpoint opts) (trace (world S)))).
  - intros S e. apply postsTo_step.
  - constructor.
Qed.

Lemma buffersReset_lookup (ws : list (Worker State)) i w :
  buffersReset ws → ws !! i = Some w → pc w = WorkerReturned ∨ buf w = [].
Proof.
  unfold buffersReset. rewrite Forall_forall. intros Hall Hw.
  apply Hall. by eapply list_elem_of_lookup_2.
Qed.

Lemma buffersReset_step opts gen S e :
  (status (world S) = Running → buffersReset (workers S)) →
  status (world (sys_step opts gen S e)) = Running →
  buffersReset (workers (sys_step opts gen S e)).
Proof.
  intros HS.
  step_cases; intros Hrun; try done; try congruence; try (by apply HS).
  all: apply Forall_insert; [by apply HS|]; simpl; auto.
  all: match goal with
       | Hw : _ = Some _ |- _ =>
           destruct (buffersReset_lookup _ _ _ (HS eq_refl) Hw)
             as [Hpc|Hbuf]; [congruence | by right]
       end.
Qed.

(** X13. While the process runs, every worker that has not returned holds
    an empty buffer between iterations: each request starts from a buffer
    that [buf.Reset()] has cleared. *)
Theorem buffers_reset_between_iterations opts gen (σ : Store) es :
  status (world (run opts gen (initSystem σ) es)) = Running →
  buffersReset (workers (run opts gen (initSystem σ) es)).
Proof.
  apply (run_invariant
           (λ S, status (world S) = Running → buffersReset (workers S))).
  - intros S e. apply buffersReset_step.
  - intros _. unfold buffersReset. cbn [initSystem workers].
    apply Forall_replicate. by right.
Qed.


Lemma startedWorkers_insert (ws : list (Worker State)) i w w' :
  ws !! i = Some w →
  (startedWorkers (<[i := w']> ws) + (if hasStarted w then 1 else 0)
   = startedWorkers ws + (if hasStarted w' then 1 else 0))%nat.
Proof.
  intros Hw. pose proof (lookup_lt_Some _ _ _ Hw) as Hlt.
  rewrite insert_take_drop by done.
  rewrite <- (take_drop_middle ws i w Hw) at 3.
  unfold startedWorkers. rewrite !filter_app, !length_app.
  rewrite !filter_cons.
  destruct (hasStarted w) eqn:Hs, (hasStarted w') eqn:Hs';
    repeat case_decide; simpl; try congruence; lia.
Qed.

Lemma startsWithinRefreshes_step opts gen S e :
  startsWithinRefreshes S → startsWithinRefreshes (sys_step opts gen S e).
Proof.
  unfold startsWithinRefreshes. intros HS.
  step_cases; rewrite ?countOutputs_snoc, ?length_app; simpl; try lia.
  all: match goal with
       | Hw : _ = Some ?w |- context [<[_ := ?w']> _] =>
           pose proof (startedWorkers_insert _ _ _ w' Hw) as Hins;
           unfold hasStarted in Hins; simpl in Hins
       end.
  all: repeat match goal with
       | Hpc : pc _ = _ |- _ => rewrite Hpc in Hins; clear Hpc
       end.
  all: try match goal with
       | Hch : stateChannel _ = _ |- _ =>
           try rewrite Hch in HS; try rewrite Hch; simpl in HS
       end.
  all: simpl; lia.
Qed.

(** X15. In every run, the workers that have got past their first receive,
    the queued snapshots and the snapshot that the producer is about to send
    together number at most the calls of [mkState.Refresh] made so far: each
    worker needs a snapshot of its own to start, and each call yields at most
    one. *)
Theorem workers_start_one_per_refresh opts gen (σ : Store) es :
  startsWithinRefreshes (run opts gen (initSystem σ) es).
Proof.
  apply run_invariant; [apply startsWithinRefreshes_step|].
  unfold startsWithinRefreshes, startedWorkers. cbn [initSystem workers world].
  rewrite filter_none; [simpl; lia|].
  apply Forall_replicate. done.
Qed.

Lemma wrap_shift z k : Int64.wrap (z + k * 2 ^ 64) = Int64.wrap z.
Proof.
  unfold Int64.wrap.
  replace (z + k * 2 ^ 64 + 2 ^ 63) with (z + 2 ^ 63 + k * 2 ^ 64) by lia.
  by rewrite Z_mod_plus_full.
Qed.

Lemma wrap_defect z : ∃ k, Int64.wrap z = z + k * 2 ^ 64.
Proof.
  exists (- ((z + 2 ^ 63) `div` 2 ^ 64)). unfold Int64.wrap.
  pose proof (Z.div_mod (z + 2 ^ 63) (2 ^ 64) ltac:(lia)). lia.
Qed.

Lemma reportedRates_snoc tr o :
  reportedRates (tr ++ [o]) = reportedRates tr ++ reportedRates [o].
Proof. unfold reportedRates. apply omap_app. Qed.

Lemma sum_rates_snoc (l : list Z) z :
  foldr Z.add 0 (l ++ [z]) = foldr Z.add 0 l + z.
Proof. induction l as [|x l IH]; simpl; lia. Qed.

Lemma reports_telescope_step opts gen S e :
  prevCounter S = Int64.wrap (foldr Z.add 0 (reportedRates (trace (world S)))) ∧
  Int64.in_range (counter (world S)) →
  prevCounter (sys_step opts gen S e)
  = Int64.wrap (foldr Z.add 0
                  (reportedRates (trace (world (sys_step opts gen S e))))) ∧
  Int64.in_range (counter (world (sys_step opts gen S e))).
Proof.
  intros [Hprev Hrange].
  step_cases; rewrite ?reportedRates_snoc; simpl; rewrite ?app_nil_r;
    try (split; [done | by auto using wrap_range]).
  all: try (split; [done | apply wrap_range]).
  all: split; [|done].
  all: rewrite ?sum_rates_snoc.
  all: unfold Int64.sub; rewrite Hprev.
  all: set (t := foldr Z.add 0 (reportedRates (trace (world S)))).
  all: destruct (wrap_defect t) as [k1 Hk1];
    destruct (wrap_defect (counter (world S) - Int64.wrap t)) as [k2 Hk2].
  all: rewrite Hk2, Hk1.
  all: replace (t + (counter (world S) - (t + k1 * 2 ^ 64) + k2 * 2 ^ 64))
         with (counter (world S) + (k2 - k1) * 2 ^ 64) by lia.
  all: rewrite wrap_shift; symmetry; by apply wrap_in_range.
Qed.

(** X18. The rates printed by the reporting loop add up, within the width of
    the counter, to the counter value of the latest report: no request is
    reported twice or left out between reports. *)
Theorem reported_rates_telescope opts gen (σ : Store) es :
  prevCounter (run opts gen (initSystem σ) es)
  = Int64.wrap
      (foldr Z.add 0
         (reportedRates (trace (world (run opts gen (initSystem σ) es))))).
Proof.
  apply (run_invariant
           (λ S, prevCounter S
                 = Int64.wrap (foldr Z.add 0 (reportedRates (trace (world S))))
                 ∧ Int64.in_range (counter (world S)))).
  - intros S e. apply reports_telescope_step.
  - split; [done|]. unfold Int64.in_range, Int64.min_int, Int64.max_int.
    simpl. lia.
Qed.

Lemma held_after_insert (ws : list (Worker State)) i w' s :
  s ∈ omap (λ w, match pc w with Looping s => Some s | _ => None end)
        (<[i := w']> ws) →
  s ∈ omap (λ w, match pc w with Looping s => Some s | _ => None end) ws ∨
  pc w' = Looping s.
Proof.
  rewrite !list_elem_of_omap. intros (y & Hy & Hs).
  apply list_elem_of_lookup in Hy as [j Hj].
  apply list_lookup_insert_Some in Hj as [(-> & -> & _)|[_ Hj]].
  - right. destruct (pc y); congruence.
  - left. exists y. split; [by eapply list_elem_of_lookup_2 | done].
Qed.

Lemma held_lookup (ws : list (Worker State)) i w s :
  ws !! i = Some w → pc w = Looping s →
  s ∈ omap (λ w, match pc w with Looping s => Some s | _ => None end) ws.
Proof.
  intros Hw Hpc. apply list_elem_of_omap. exists w.
  split; [by eapply list_elem_of_lookup_2 | by rewrite Hpc].
Qed.

Lemma worker_step_snapshots opts gen env W w s :
  s ∈ stateChannel (worker_step opts gen env W w).1 ∨
  pc (worker_step opts gen env W w).2 = Looping s →
  s ∈ stateChannel W ∨ pc w = Looping s.
Proof.
  step_cases; rewrite ?elem_of_cons; intros [Hs|Hs]; simplify_eq;
    try (by left); try (by right); try (left; by right); try (left; by left).
  all: try congruence.
  all: match goal with
       | Hch : stateChannel ?W = _, Hin : _ ∈ stateChannel ?W |- _ =>
           rewrite Hch in Hin
       end.
  all: try (by apply elem_of_nil in Hs).
  all: apply elem_of_cons in Hs as [->|Hs]; auto.
Qed.

Lemma producer_step_snapshots env W (p : ppc State) s :
  s ∈ stateChannel (producer_step env W p).1 ∨
  (producer_step env W p).2 = Publishing s →
  s ∈ stateChannel W ∨ p = Publishing s ∨
  (status W = Running ∧ p = AtRefresh ∧ refresh env = Refreshed s).
Proof.
  step_cases; rewrite ?elem_of_app, ?list_elem_of_singleton;
    intros [Hs|Hs]; simplify_eq; intuition (subst; auto).
Qed.

Lemma reporter_step_channel W prev :
  stateChannel (reporter_step W prev).1 = stateChannel W.
Proof. by step_cases. Qed.

Lemma snapshots_step opts gen S e :
  snapshotsOf (sys_step opts gen S e)
  ⊆ snapshotsOf S ++ refreshedDuring opts gen S [e].
Proof.
  intros s. unfold snapshotsOf, sys_step.
  destruct (status (world S)) eqn:Hst;
    [| rewrite !elem_of_app; tauto | rewrite !elem_of_app; tauto].
  destruct e as [env|i env| |]; simpl; rewrite ?Hst, ?app_nil_r.
  - pose proof (producer_step_snapshots env (world S) (producer S) s) as Hp.
    destruct (producer_step env (world S) (producer S)) as [W' p'].
    simpl in *. rewrite !elem_of_app.
    assert (Hfrom : s ∈ stateChannel W' ∨ p' = Publishing s →
              (s ∈ stateChannel (world S) ∨
               s ∈ omap (λ w, match pc w with Looping s0 => Some s0
                                            | _ => None end) (workers S) ∨
               s ∈ match producer S with Publishing s0 => [s0] | _ => [] end) ∨
              s ∈ match producer S with
                  | AtRefresh => match refresh env with
                                 | Refreshed s0 => [s0]
                                 | RefreshFailed _ => []
                                 end
                  | _ => []
                  end).
    { intros Hin. destruct (Hp Hin) as [Hc|[Hc|(_ & Hc & Hr)]].
      - left. by left.
      - rewrite Hc. left. right. right. by apply list_elem_of_singleton.
      - rewrite Hc, Hr. right. by apply list_elem_of_singleton. }
    intros [Hs|[Hs|Hs]].
    + apply Hfrom. by left.
    + left. right. by left.
    + destruct p' as [| |s'| |]; try by apply elem_of_nil in Hs.
      apply list_elem_of_singleton in Hs as ->. apply Hfrom. by right.
  - destruct (workers S !! i) as [w|] eqn:Hw.
    + pose proof (worker_step_snapshots opts gen env (world S) w s) as Hws.
      destruct (worker_step opts gen env (world S) w) as [W' w'].
      simpl in *. rewrite !elem_of_app.
      assert (Hfrom : s ∈ stateChannel W' ∨ pc w' = Looping s →
                s ∈ stateChannel (world S) ∨
                s ∈ omap (λ w, match pc w with Looping s0 => Some s0
                                             | _ => None end) (workers S)).
      { intros Hin. destruct (Hws Hin) as [Hc|Hc]; [by left|].
        right. by eapply held_lookup. }
      intros [Hs|[Hs|Hs]].
      * destruct (Hfrom (or_introl Hs)); [by left | right; by left].
      * apply held_after_insert in Hs as [Hs|Hs]; [right; by left|].
        destruct (Hfrom (or_intror Hs)); [by left | right; by left].
      * right. by right.
    + rewrite !elem_of_app. tauto.
  - pose proof (reporter_step_channel (world S) (prevCounter S)) as Hr.
    destruct (reporter_step (world S) (prevCounter S)) as [W' prev].
    simpl in *. rewrite Hr, !elem_of_app. tauto.
  - simpl. rewrite !elem_of_app. tauto.
Qed.

Lemma snapshots_run opts gen es : ∀ S,
  snapshotsOf (run opts gen S es)
  ⊆ snapshotsOf S ++ refreshedDuring opts gen S es.
Proof.
  induction es as [|e es IH]; intros S s Hs.
  - simpl in *. by rewrite app_nil_r.
  - unfold run in Hs. simpl in Hs. apply IH in Hs.
    apply elem_of_app in Hs as [Hs|Hs].
    + apply snapshots_step in Hs. simpl in Hs. rewrite app_nil_r in Hs.
      apply elem_of_app in Hs as [Hs|Hs].
      * apply elem_of_app. by left.
      * apply elem_of_app. right. simpl. apply elem_of_app. by left.
    + apply elem_of_app. right. simpl. apply elem_of_app. by right.
Qed.

(** X19. Every snapshot that is queued, held by a worker or about to be sent
    was returned by a call of [mkState.Refresh] earlier in the run: workers
    never see the bare initial state, nor anything else. *)
Theorem snapshots_come_from_refresh opts gen (σ : Store) es :
  snapshotsOf (run opts gen (initSystem σ) es)
  ⊆ refreshedDuring opts gen (initSystem σ) es.
Proof.
  intros s Hs. apply snapshots_run in Hs.
  apply elem_of_app in Hs as [Hs|Hs]; [|done].
  exfalso. revert Hs. unfold snapshotsOf. cbn [initSystem world workers producer stateChannel].
  rewrite app_nil_r. simpl.
  intros Hs. by apply elem_of_nil in Hs.
Qed.

(** X22. When the [Query] of an iteration succeeds, the worker hands to the
    transport exactly the bytes that [Query] left in the buffer, addressed to
    the configured endpoint, and keeps the random source as [Query] advanced
    it; nothing else is sent in that iteration. *)
Theorem worker_posts_what_Query_wrote opts gen S i env w held b σ :
  status (world S) = Running →
  workers S !! i = Some w →
  pc w = Looping held →
  worker_select env (world S) ≠ SelDone →
  Query gen (buf w) (iterationState env (world S) held) (store (world S))
    = (Done None, b, σ) →
  store (world (sys_step opts gen S (EvWorker i env))) = σ ∧
  ∃ more,
    trace (world (sys_step opts gen S (EvWorker i env)))
    = trace (world S)
      ++ HttpPost (Web3Endpoint opts) "application/json" b :: more ∧
    countOutputs isPost more = 0%nat.
Proof.
  intros Hst Hi Hpc Hsel HQ.
  destruct (worker_iteration opts gen S i env w held Hst Hi Hpc Hsel)
    as (W0 & Hσ & Hst0 & Hc0 & Htr0 & Hstep).
  rewrite Hstep. clear Hstep. unfold worker_body. rewrite Hσ, HQ.
  unfold query.
  destruct (post env) as [[r|] [e|]]; simpl; rewrite Htr0; (split; [done|]).
  - eexists [_]. rewrite <- app_assoc. split; [reflexivity | done].
  - by exists [].
  - by exists [].
  - by exists [].
Qed.

(** X23. When a waiting worker receives the only queued snapshot, the queue
    is empty again: every other waiting worker stays blocked, and a looping
    worker scheduled next carries on with the snapshot it already holds. *)
Theorem snapshot_taken_by_one_worker opts gen S i env w s :
  status (world S) = Running →
  stateChannel (world S) = [s] →
  workers S !! i = Some w →
  pc w = AwaitState →
  let S' := sys_step opts gen S (EvWorker i env) in
  pc <$> workers S' !! i = Some (Looping s) ∧
  stateChannel (world S') = [] ∧
  (∀ j wj env', j ≠ i → workers S !! j = Some wj → pc wj = AwaitState →
     sys_step opts gen S' (EvWorker j env') = S') ∧
  (∀ env' held, ctxDone (world S) = false →
     iterationState env' (world S') held = held).
Proof.
  intros Hst Hch Hi Hpc S'.
  assert (HS' : S' = {| world := set_stateChannel [] (world S);
                        producer := producer S;
                        workers := <[i := {| pc := Looping s; buf := buf w |}]>
                                     (workers S);
                        prevCounter := prevCounter S |}).
  { subst S'. unfold sys_step, worker_step. by rewrite Hst, Hi, Hpc, Hch. }
  rewrite HS'. simpl. split.
  { by rewrite list_lookup_insert_eq by (by eapply lookup_lt_Some). }
  split; [done|]. split.
  - intros j wj env' Hne Hj Hpcj. unfold sys_step. simpl. rewrite Hst.
    rewrite list_lookup_insert_ne by done. rewrite Hj.
    unfold worker_step. simpl. rewrite Hst, Hpcj.
    f_equal. apply list_insert_id.
    by rewrite list_lookup_insert_ne.
  - intros env' held Hctx. unfold iterationState, worker_select. simpl.
    by rewrite Hctx.
Qed.

End RunFacts.

(** ** Instances of the further properties *)

Lemma Add_is_linear_insertion_witness :
  Add (Demo.registry [Demo.queryB; Demo.queryA]) Demo.queryP
  = Done {| queries := [Demo.queryB; Demo.queryA; Demo.queryP];
            totalWeight := 401 |}.
Proof.
  exact (Add_is_linear_insertion
           (Demo.registry [Demo.queryB; Demo.queryA]) Demo.queryP
           ltac:(repeat constructor; unfold heavierFirst; simpl; lia)
           ltac:(reflexivity)).
Defined.

Lemma AddAll_is_insertion_sort_witness :
  AddAll emptyGenerator [Demo.queryA; Demo.queryP; Demo.queryB; Demo.queryQ]
  = Done {| queries := [Demo.queryB; Demo.queryA; Demo.queryP; Demo.queryQ];
            totalWeight := 402 |}.
Proof.
  exact (AddAll_is_insertion_sort
           [Demo.queryA; Demo.queryP; Demo.queryB; Demo.queryQ]
           ltac:(repeat constructor)).
Defined.

Lemma AddAll_keeps_descending_order_witness :
  ∃ g, AddAll emptyGenerator [Demo.queryA; Demo.queryP; Demo.queryB] = Done g ∧
       ∀ i j x y, (i < j)%nat → queries g !! i = Some x →
                  queries g !! j = Some y → Weight y ≤ Weight x.
Proof.
  apply (AddAll_keeps_descending_order [Demo.queryA; Demo.queryP; Demo.queryB]).
  repeat constructor.
Defined.

Lemma Add_nonpositive_weight_panics_witness :
  Add (Demo.registry [Demo.queryB; Demo.queryA]) Scenario.weightless
  = Panicked (SliceBoundsOutOfRange 4 3).
Proof.
  exact (Add_nonpositive_weight_panics
           (Demo.registry [Demo.queryB; Demo.queryA]) Scenario.weightless
           ltac:(discriminate)
           ltac:(repeat constructor; simpl; discriminate)).
Defined.

Lemma Query_stops_at_first_cover_witness :
  selectedIndex (Demo.registry [Demo.queryB; Demo.queryA]) 300 = Some 0%nat ↔
    (0 < 2)%nat ∧ 300 ≤ 300 ∧ (0%nat = 0%nat ∨ 0 < 300).
Proof.
  exact (Query_stops_at_first_cover
           (Demo.registry [Demo.queryB; Demo.queryA]) 300 0
           ltac:(repeat constructor) ltac:(discriminate)).
Defined.

Lemma drawsSelecting_count_witness :
  Z.of_nat (drawsSelecting (Demo.registry [Demo.queryB; Demo.queryA]) 1)
  = 100 + -1.
Proof.
  exact (drawsSelecting_count
           (Demo.registry [Demo.queryB; Demo.queryA]) 1 Demo.queryA
           ltac:(repeat constructor) ltac:(reflexivity) ltac:(discriminate)
           ltac:(reflexivity)).
Defined.

Lemma Query_reaches_generator_for_any_value_witness :
  ∃ weight k q,
    Int64.rem (-1234) 400 = Some weight ∧
    - 400 < weight < 400 ∧
    walk [Demo.queryB; Demo.queryA] 0 weight 0%nat = Some (k, q) ∧
    [Demo.queryB; Demo.queryA] !! k = Some q ∧
    (-1234 ≤ 0 → k = 0%nat) ∧
    Query (Demo.registry [Demo.queryB; Demo.queryA]) [] () [-1234]
    = call (Generate q) [] () [].
Proof.
  exact (Query_reaches_generator_for_any_value
           (Demo.registry [Demo.queryB; Demo.queryA]) [] () [-1234]
           ltac:(discriminate) ltac:(repeat constructor) ltac:(reflexivity)
           ltac:(split; discriminate)).
Defined.

Lemma Query_divides_by_wrapped_total_witness :
  ∃ g, AddAll emptyGenerator Scenario.quarters = Done g ∧
       ∀ (w : Buffer) (s : unit) (σ : list Z),
         Query g w s σ = (Panicked IntegerDivideByZero, w, (RandInt64 s σ).2).
Proof.
  apply (Query_divides_by_wrapped_total Scenario.quarters).
  - discriminate.
  - repeat constructor.
  - reflexivity.
Defined.

Lemma buffers_reset_between_iterations_witness :
  buffersReset
    (workers (run (Demo.opts 0) (Demo.registry [Demo.queryB; Demo.queryA])
                (initSystem [250; 350; 50]) Scenario.warmUp)).
Proof.
  apply (buffers_reset_between_iterations (Demo.opts 0)
           (Demo.registry [Demo.queryB; Demo.queryA]) [250; 350; 50]
           Scenario.warmUp).
  vm_compute. reflexivity.
Defined.


Lemma Query_after_AddAll_calls_an_added_generator_witness :
  ∃ g, AddAll emptyGenerator [Demo.queryA; Demo.queryP; Demo.queryB] = Done g ∧
       ∀ (w : Buffer) (s : unit) (σ : list Z),
         ∃ q, q ∈ [Demo.queryA; Demo.queryP; Demo.queryB] ∧
              Query g w s σ = call (Generate q) w s (RandInt64 s σ).2.
Proof.
  apply (Query_after_AddAll_calls_an_added_generator
           [Demo.queryA; Demo.queryP; Demo.queryB]).
  - discriminate.
  - repeat constructor.
  - discriminate.
Defined.

Lemma last_entry_of_weight_one_never_selected_witness :
  selectedIndex (Demo.registry [Demo.queryB; Demo.queryA; Demo.queryP]) 400
  ≠ Some 2%nat.
Proof.
  apply (last_entry_of_weight_one_never_selected
           (Demo.registry [Demo.queryB; Demo.queryA; Demo.queryP])
           2 Demo.queryP 400).
  - repeat constructor.
  - reflexivity.
  - discriminate.
  - reflexivity.
  - lia.
  - reflexivity.
  - reflexivity.
  - split; [discriminate | reflexivity].
Defined.

Lemma worker_posts_what_Query_wrote_witness :
  store (world (sys_step (Demo.opts 0)
                  (Demo.registry [Demo.queryB; Demo.queryA])
                  (Demo.oneWorker [350]) (EvWorker 0 Scenario.sendOk))) = [] ∧
  ∃ more,
    trace (world (sys_step (Demo.opts 0)
                    (Demo.registry [Demo.queryB; Demo.queryA])
                    (Demo.oneWorker [350]) (EvWorker 0 Scenario.sendOk)))
    = [] ++ HttpPost "http://localhost:8545" "application/json" [Byte.x41]
            :: more ∧
    countOutputs isPost more = 0%nat.
Proof.
  apply (worker_posts_what_Query_wrote (Demo.opts 0)
           (Demo.registry [Demo.queryB; Demo.queryA]) (Demo.oneWorker [350])
           0 Scenario.sendOk {| pc := Looping (); buf := [] |} ()).
  - reflexivity.
  - reflexivity.
  - reflexivity.
  - discriminate.
  - reflexivity.
Defined.

Lemma snapshot_taken_by_one_worker_witness :
  let S' := sys_step (Demo.opts 0) (Demo.registry [Demo.queryB; Demo.queryA])
              Scenario.twoWaiting (EvWorker 0 Scenario.sendOk) in
  pc <$> workers S' !! 0%nat = Some (Looping ()) ∧
  stateChannel (world S') = [] ∧
  (∀ j wj env', j ≠ 0%nat → workers Scenario.twoWaiting !! j = Some wj →
     pc wj = AwaitState →
     sys_step (Demo.opts 0) (Demo.registry [Demo.queryB; Demo.queryA]) S'
       (EvWorker j env') = S') ∧
  (∀ env' held, ctxDone (world Scenario.twoWaiting) = false →
     iterationState env' (world S') held = held).
Proof.
  apply (snapshot_taken_by_one_worker (Demo.opts 0)
           (Demo.registry [Demo.queryB; Demo.queryA]) Scenario.twoWaiting
           0 Scenario.sendOk newWorker ()); reflexivity.
Defined.

(** ** The statement-level model *)

(** Splits a statement of the process into the cases of the code. *)
Ltac fine_cases :=
  unfold fine_sys_step, fine_worker_step, worker_select, producer_step,
    reporter_step, deref_StatusCode, exit,
    mbind, exec_bind, mret, exec_ret in *;
  repeat case_match; simplify_eq/=.

Section FineFacts.
Context {State Store : Type} `{!StateAPI State Store}.
Implicit Types (W : World State Store) (w : Worker State).
Implicit Types (fw : FineWorker State) (S : FineSystem State Store).

(** The statements after the [select], run on their own, do what
    [worker_body] does. *)
Lemma fine_body opts gen env W held s b :
  status W = Running →
  (fine_finish 5 opts gen env W {| point := AtQuery s; buffer := b |}).1
  = (worker_body opts gen env s W {| pc := Looping held; buf := b |}).1 ∧
  (status (worker_body opts gen env s W {| pc := Looping held; buf := b |}).1
   = Running →
   atBoundary
     (fine_finish 5 opts gen env W {| point := AtQuery s; buffer := b |}).2
   = Some (worker_body opts gen env s W {| pc := Looping held; buf := b |}).2).
Proof.
  intros Hst.
  destruct (Query gen b s (store W)) as [[r b'] σ] eqn:HQ.
  destruct (post env) as [resp err] eqn:Hp.
  unfold worker_body, query, fine_finish, fine_worker_step, deref_StatusCode.
  cbn [buf buffer point pc]. rewrite Hst, HQ, Hp.
  destruct r as [[e|]|p]; [destruct (decide (e = io_EOF)) | |];
    try destruct err as [e'|]; try destruct resp as [r|];
    repeat (progress (simpl; rewrite ?Hst, ?HQ, ?Hp)); split; done.
Qed.

(** X24. An iteration of [worker_step] is the run of its statements with no
    other goroutine in between: both leave the same world, and while the
    process lives both leave the worker at the same place with the same
    buffer. *)
Theorem worker_step_runs_the_statements opts gen env W w :
  (fine_iteration opts gen env W (refine w)).1
  = (worker_step opts gen env W w).1 ∧
  (status (worker_step opts gen env W w).1 = Running →
   atBoundary (fine_iteration opts gen env W (refine w)).2
   = Some (worker_step opts gen env W w).2).
Proof.
  unfold fine_iteration, worker_step, refine.
  destruct w as [p b]. cbn [pc buf].
  destruct (status W) eqn:Hst.
  2,3: unfold fine_worker_step; rewrite Hst; destruct p; simpl;
    split; congruence.
  destruct p as [|held|].
  - unfold fine_worker_step. cbn [point buffer]. rewrite Hst.
    destruct (stateChannel W); simpl; split; done.
  - unfold fine_worker_step at 1 2. cbn [point buffer]. rewrite Hst.
    destruct (worker_select env W) as [s rest| |].
    + by apply fine_body.
    + simpl. split; done.
    + by apply fine_body.
  - unfold fine_worker_step. cbn [point buffer]. rewrite Hst. simpl.
    split; done.
Qed.

(** A property kept by every statement holds after every schedule. *)
Lemma fine_run_invariant (I : FineSystem State Store → Prop) opts gen :
  (∀ S e, I S → I (fine_sys_step opts gen S e)) →
  ∀ es S, I S → I (fine_run opts gen S es).
Proof.
  intros Hstep es. induction es as [|e es IH]; intros S HS; [done|].
  unfold fine_run in *. simpl. apply IH. by apply Hstep.
Qed.

Lemma count_insert {A} (f : A → bool) (l : list A) i (x x' : A) :
  l !! i = Some x →
  (length (filter (λ y, f y = true) (<[i := x']> l))
   + (if f x then 1 else 0)
   = length (filter (λ y, f y = true) l) + (if f x' then 1 else 0))%nat.
Proof.
  intros Hw. pose proof (lookup_lt_Some _ _ _ Hw) as Hlt.
  rewrite insert_take_drop by done.
  rewrite <- (take_drop_middle l i x Hw) at 3.
  rewrite !filter_app, !length_app, !filter_cons.
  destruct (f x) eqn:Hs, (f x') eqn:Hs';
    repeat case_decide; simpl; try congruence; lia.
Qed.

Lemma fine_step_length opts gen S e :
  length (fworkers (fine_sys_step opts gen S e)) = length (fworkers S).
Proof.
  unfold fine_sys_step. destruct (status (fworld S)); [|done..].
  destruct e as [env|i env| |]; simpl; try done.
  - by destruct (producer_step env (fworld S) (fproducer S)).
  - destruct (fworkers S !! i); [|done].
    destruct (fine_worker_step opts gen env (fworld S) f). simpl.
    by rewrite length_insert.
  - by destruct (reporter_step (fworld S) (fprevCounter S)).
Qed.

Lemma wrap_eq_shift x y x' y' :
  Int64.wrap x = Int64.wrap y → x' - x = y' - y →
  Int64.wrap x' = Int64.wrap y'.
Proof.
  intros Hxy Hd.
  replace x' with (x + (x' - x)) by lia.
  replace y' with (y + (x' - x)) by lia.
  by rewrite <- (wrap_add_wrap x), <- (wrap_add_wrap y), Hxy.
Qed.

Lemma counter_trails_step opts gen S e :
  Int64.wrap (Z.of_nat (countOutputs isPost (trace (fworld S))))
  = Int64.wrap (counter (fworld S) + Z.of_nat (inFlight (fworkers S))) →
  Int64.wrap (Z.of_nat (countOutputs isPost
                          (trace (fworld (fine_sys_step opts gen S e)))))
  = Int64.wrap (counter (fworld (fine_sys_step opts gen S e))
                + Z.of_nat (inFlight (fworkers (fine_sys_step opts gen S e)))).
Proof.
  intros HS. unfold inFlight in *.
  fine_cases; rewrite ?countOutputs_snoc; simpl; rewrite ?Nat.add_0_r;
    try done.
  all: match goal with
       | Hw : _ = Some ?w |- context [<[_ := ?w']> _] =>
           pose proof (count_insert sentNotCounted _ _ _ w' Hw) as Hins
       end.
  all: match type of Hins with
       | (?a + _ = ?b + _)%nat =>
           set (inFlightAfter := a) in *; set (inFlightBefore := b) in *
       end.
  all: unfold sentNotCounted in Hins; simpl in Hins.
  all: repeat match goal with
       | Hpc : point _ = _ |- _ => rewrite Hpc in Hins; clear Hpc
       end.
  all: unfold Int64.add; rewrite ?wrap_add_wrap.
  all: eapply wrap_eq_shift; [exact HS | lia].
Qed.

(** X11. At every moment of every run, the requests handed to the transport
    are the requests counted plus the requests of the workers that stand
    between their [http.Post] and their increment, within the width of the
    counter; there are at most [numWorkers] of the latter. The counter that
    the reporting loop reads can thus trail the requests of the trace, by
    up to 250. *)
Theorem counter_trails_requests opts gen (σ : Store) es :
  counterTrailsPosts (fine_run opts gen (fineInit σ) es).
Proof.
  unfold counterTrailsPosts. split.
  - apply (fine_run_invariant
             (λ S, Int64.wrap (Z.of_nat (countOutputs isPost (trace (fworld S))))
                   = Int64.wrap (counter (fworld S)
                                 + Z.of_nat (inFlight (fworkers S))))).
    + intros S e. apply counter_trails_step.
    + unfold inFlight. cbn [fineInit fworld fworkers trace counter].
      rewrite filter_none; [done|]. by apply Forall_replicate.
  - assert (Hlen : length (fworkers (fine_run opts gen (fineInit σ) es))
                   = numWorkers).
    { apply (fine_run_invariant (λ S, length (fworkers S) = numWorkers)).
      - intros S e HS. by rewrite fine_step_length.
      - cbn [fineInit fworkers]. apply length_replicate. }
    rewrite <- Hlen. unfold inFlight. apply length_filter.
Qed.

Lemma uncancelled_step opts gen S e :
  isCancel e = false →
  ctxDone (fworld S) = false ∧ fproducer S ≠ ProducerReturned ∧
  (returnedWorkers (fworkers S)
   ≤ countOutputs isEOFLine (trace (fworld S)))%nat →
  ctxDone (fworld (fine_sys_step opts gen S e)) = false ∧
  fproducer (fine_sys_step opts gen S e) ≠ ProducerReturned ∧
  (returnedWorkers (fworkers (fine_sys_step opts gen S e))
   ≤ countOutputs isEOFLine (trace (fworld (fine_sys_step opts gen S e))))%nat.
Proof.
  intros He (Hctx & Hprod & Hret). unfold returnedWorkers in *.
  destruct e as [env|i env| |]; [| | |done].
  - fine_cases; rewrite ?countOutputs_snoc; simpl;
      repeat split; try done; try congruence; lia.
  - fine_cases; rewrite ?countOutputs_snoc; simpl;
      rewrite ?Nat.add_0_r; try done.
    all: match goal with
         | Hw : _ = Some ?w |- context [<[_ := ?w']> _] =>
             pose proof (count_insert isReturned _ _ _ w' Hw) as Hins
         end.
    all: match type of Hins with
         | (?a + _ = ?b + _)%nat =>
             set (returnedAfter := a) in *; set (returnedBefore := b) in *
         end.
    all: unfold isReturned in Hins; simpl in Hins.
    all: repeat match goal with
         | Hpc : point _ = _ |- _ => rewrite Hpc in Hins; clear Hpc
         end.
    all: repeat split; try done; try congruence; try lia.
  - fine_cases; rewrite ?countOutputs_snoc; simpl;
      repeat split; try done; lia.
Qed.

Lemma uncancelled_run opts gen es : ∀ S,
  Forall (λ e, isCancel e = false) es →
  ctxDone (fworld S) = false ∧ fproducer S ≠ ProducerReturned ∧
  (returnedWorkers (fworkers S)
   ≤ countOutputs isEOFLine (trace (fworld S)))%nat →
  ctxDone (fworld (fine_run opts gen S es)) = false ∧
  fproducer (fine_run opts gen S es) ≠ ProducerReturned ∧
  (returnedWorkers (fworkers (fine_run opts gen S es))
   ≤ countOutputs isEOFLine (trace (fworld (fine_run opts gen S es))))%nat.
Proof.
  induction es as [|e es IH]; intros S Hes HS; [done|].
  inversion Hes; subst. unfold fine_run in *. simpl.
  apply IH; [done|]. by apply uncancelled_step.
Qed.

(** X25. As long as nothing raises the cancellation signal, and [main]
    itself never does, the signal stays down, the producer goroutine has
    not returned, and every worker goroutine that has returned printed the
    line of [io.EOF] first: no goroutine stops on [ctx.Done()]. *)
Theorem goroutines_stop_only_on_eof opts gen (σ : Store) es :
  Forall (λ e, isCancel e = false) es →
  ctxDone (fworld (fine_run opts gen (fineInit σ) es)) = false ∧
  fproducer (fine_run opts gen (fineInit σ) es) ≠ ProducerReturned ∧
  (returnedWorkers (fworkers (fine_run opts gen (fineInit σ) es))
   ≤ countOutputs isEOFLine
       (trace (fworld (fine_run opts gen (fineInit σ) es))))%nat.
Proof.
  intros Hes. apply uncancelled_run; [done|].
  repeat split; [done|].
  unfold returnedWorkers. cbn [fineInit fworkers].
  rewrite filter_none; [simpl; lia|]. by apply Forall_replicate.
Qed.

End FineFacts.

(** X26. The reporting loop can run between a worker's [http.Post] and its
    increment: in this run one request has been handed to the transport,
    the counter still reads 0, and the rate that is logged is 0. *)
Example report_misses_request_in_flight :
  let S := fine_run (Demo.opts 0) (Demo.registry [Demo.queryB; Demo.queryA])
             (fineInit [350]) Interleaving.reportInBetween in
  countOutputs isPost (trace (fworld S)) = 1%nat ∧
  counter (fworld S) = 0 ∧
  inFlight (fworkers S) = 1%nat ∧
  reportedRates (trace (fworld S)) = [0].
Proof. vm_compute. done. Qed.

Lemma goroutines_stop_only_on_eof_witness :
  ctxDone (fworld (fine_run (Demo.opts 0) Interleaving.drained
                     (fineInit [5%Z]) Interleaving.oneQuery)) = false ∧
  fproducer (fine_run (Demo.opts 0) Interleaving.drained
               (fineInit [5%Z]) Interleaving.oneQuery) ≠ ProducerReturned ∧
  (returnedWorkers (fworkers (fine_run (Demo.opts 0) Interleaving.drained
                                (fineInit [5%Z]) Interleaving.oneQuery))
   ≤ countOutputs isEOFLine
       (trace (fworld (fine_run (Demo.opts 0) Interleaving.drained
                         (fineInit [5%Z]) Interleaving.oneQuery))))%nat.
Proof.
  apply (goroutines_stop_only_on_eof (Demo.opts 0) Interleaving.drained
           [5%Z] Interleaving.oneQuery).
  repeat constructor.
Defined.
